(** * Freelancer-hub load balancer: routing and traffic-shaping engine

    A shallow embedding of [loadBalancer.js] (least-connections proxy),
    of the round-robin variant of the same server, and of
    [middleware/healthCheck.js].

    Conventions.
    - JavaScript numbers that hold counters and millisecond timestamps are
      [Z]; no operation of the program leaves the exactly representable
      integers.
    - The [Map] [requestCounts] is a [gmap string RateRecord], the [Set]
      [blockedIPs] a [gset string].  Insertion order of the [Map] is not
      observable through the operations embedded here.
    - The [servers] array is a [list Server]; a reference to one of its
      objects is its position in the array, so that [server.active = ...],
      [assignedServer.connections++] are updates at that position.
    - Text is represented by its UTF-8 bytes ([string], a list of [ascii]). *)

From Stdlib Require Import ZArith Ascii String.
From stdpp Require Import gmap strings list fin_maps sorting.

Local Open Scope Z_scope.

(** ** Abuse guard: rate counting, blocking, periodic unblocking *)

Module AbuseGuard.

Definition RATE_LIMIT : Z := 100.
Definition TIME_WINDOW : Z := 60 * 1000.

(** The object literal [{ count, startTime }] stored per client address. *)
Record RateRecord := mkRate { count : Z; startTime : Z }.

(** The two process-wide collections. *)
Record State := mkState {
  requestCounts : gmap string RateRecord;
  blockedIPs : gset string
}.

Definition initial : State := mkState ∅ ∅.

(** What a middleware does with the request: answer 403 itself, or call
    [next()]. *)
Inductive Verdict := Forbidden403 | Next.

(** [now - data.startTime > TIME_WINDOW] *)
Definition expired (now : Z) (data : RateRecord) : bool :=
  TIME_WINDOW <? now - startTime data.

(** Middleware "block IPs exceeding rate limit": reads [blockedIPs] only. *)
Definition blockedMiddleware (ip : string) (st : State) : Verdict * State :=
  if decide (ip ∈ blockedIPs st) then (Forbidden403, st) else (Next, st).

(** Rate limiting middleware.  [data] is the stored object, so
    [data.count++] is an update of the map entry that stays in place on
    the two paths that do not overwrite it. *)
Definition rateLimitMiddleware (ip : string) (now : Z) (st : State)
  : Verdict * State :=
  match requestCounts st !! ip with
  | None =>
      (Next, mkState (<[ip := mkRate 1 now]> (requestCounts st)) (blockedIPs st))
  | Some data =>
      let data := mkRate (count data + 1) (startTime data) in
      let counts := <[ip := data]> (requestCounts st) in
      if expired now data then
        (Next, mkState (<[ip := mkRate 1 now]> counts) (blockedIPs st))
      else if RATE_LIMIT <? count data then
        (Forbidden403, mkState counts ({[ip]} ∪ blockedIPs st))
      else
        (Next, mkState counts (blockedIPs st))
  end.

(** The request-check path: the two middlewares in registration order. *)
Definition check (ip : string) (now : Z) (st : State) : Verdict * State :=
  match blockedMiddleware ip st with
  | (Forbidden403, st') => (Forbidden403, st')
  | (Next, st') => rateLimitMiddleware ip now st'
  end.

(** Body of the loop of the periodic unblocking callback, for one entry
    [[ip, data]] of [requestCounts.entries()]. *)
Definition reap_entry (now : Z) (ip : string) (data : RateRecord) (st : State)
  : State :=
  if expired now data then
    mkState (delete ip (requestCounts st)) (blockedIPs st ∖ {[ip]})
  else st.

(** The periodic unblocking callback (round-robin variant of the server;
    [loadBalancer.js] registers none).  Deleting the entry being visited
    does not disturb the iteration, so every entry present at the start is
    visited once. *)
Definition reap_entries (now : Z) (entries : gmap string RateRecord) (st : State)
  : State :=
  map_fold (reap_entry now) st entries.

Definition reaper (now : Z) (st : State) : State :=
  reap_entries now (requestCounts st) st.

(** What can happen to the guard, in the order the event loop runs it. *)
Inductive Event :=
| Request (ip : string) (now : Z)
| Reap (now : Z).

Definition step (st : State) (e : Event) : State :=
  match e with
  | Request ip now => snd (check ip now st)
  | Reap now => reaper now st
  end.

Definition run (st : State) (es : list Event) : State := foldl step st es.

Definition event_time (e : Event) : Z :=
  match e with
  | Request _ now => now
  | Reap now => now
  end.

(** Verdicts that the requests of [ip] receive, in order, while the
    events [es] are run from [st]. *)
Fixpoint client_verdicts (ip : string) (es : list Event) (st : State)
  : list Verdict :=
  match es with
  | [] => []
  | e :: es =>
      match e with
      | Request ip' now =>
          if decide (ip' = ip) then [(check ip now st).1] else []
      | Reap _ => []
      end ++ client_verdicts ip es (step st e)
  end.

(** The guard has seen [j] requests of [ip] in the window opened at [t0]:
    up to the limit they are counted; beyond it the count stands at
    [RATE_LIMIT + 1] and the address is blocked. *)
Definition tracked (ip : string) (t0 : Z) (j : nat) (st : State) : Prop :=
  if decide (j ≤ 100)%nat then
    requestCounts st !! ip = Some (mkRate (Z.of_nat j) t0) ∧ ip ∉ blockedIPs st
  else
    requestCounts st !! ip = Some (mkRate (RATE_LIMIT + 1) t0) ∧ ip ∈ blockedIPs st.

(** A request of [ip] at [t0] opens a window: the address is not blocked
    and has no record, or one whose window is over. *)
Definition opens_window (ip : string) (t0 : Z) (st : State) : Prop :=
  (ip ∉ blockedIPs st)
  ∧ match requestCounts st !! ip with
    | None => True
    | Some data => t0 - startTime data > TIME_WINDOW
    end.

(** The event is not a run of the reaper that would delete [data]. *)
Definition spares (data : option RateRecord) (e : Event) : Prop :=
  match e, data with
  | Reap now, Some data => expired now data = false
  | _, _ => True
  end.

End AbuseGuard.

(** ** Affinity codec: [encrypt] / [decrypt] *)

Module Codec.

(** Block size of [ALGORITHM = "aes-256-cbc"], in bytes; also the length
    of [IV = crypto.randomBytes(16)]. *)
Definition BLOCK : nat := 16.

(** The block transformation behind [crypto.createCipheriv(ALGORITHM, ...)].
    The program takes it from the [crypto] module; the codec relies on two
    facts only: blocks stay 16 bytes long, and deciphering a block under
    the key it was enciphered with gives it back.

    [wide_hex_value] is what the module's ["hex"] decoder makes of a
    UTF-16 code unit above [0xFF]: nothing where the decoder compares the
    unit with the digits, the value of the unit's low byte where it looks
    the unit up in a table of 256 entries.  Nothing is required of it. *)
Class BlockCipher := {
  encrypt_block : list ascii → list ascii → list ascii;
  decrypt_block : list ascii → list ascii → list ascii;
  wide_hex_value : N → option N;
  encrypt_block_length key b :
    length b = BLOCK → length (encrypt_block key b) = BLOCK;
  decrypt_encrypt_block key b :
    length b = BLOCK → decrypt_block key (encrypt_block key b) = b
}.

Definition xor_ascii (a b : ascii) : ascii :=
  match a, b with
  | Ascii a0 a1 a2 a3 a4 a5 a6 a7, Ascii b0 b1 b2 b3 b4 b5 b6 b7 =>
      Ascii (xorb a0 b0) (xorb a1 b1) (xorb a2 b2) (xorb a3 b3)
            (xorb a4 b4) (xorb a5 b5) (xorb a6 b6) (xorb a7 b7)
  end.

Definition xor_bytes : list ascii → list ascii → list ascii :=
  zip_with xor_ascii.

(** *** The ["hex"] encoding *)

Definition hex_digit (n : N) : ascii :=
  match n with
  | 0 => "0" | 1 => "1" | 2 => "2" | 3 => "3" | 4 => "4" | 5 => "5"
  | 6 => "6" | 7 => "7" | 8 => "8" | 9 => "9" | 10 => "a" | 11 => "b"
  | 12 => "c" | 13 => "d" | 14 => "e" | _ => "f"
  end%N%char.

(** The digits that encoding produces. *)
Definition lower_hex_digits : list ascii :=
  list_ascii_of_string "0123456789abcdef".

(** Decoding accepts both letter cases. *)
Definition hex_value (c : ascii) : option N :=
  let n := N_of_ascii c in
  if (48 <=? n)%N && (n <=? 57)%N then Some (n - 48)%N
  else if (97 <=? n)%N && (n <=? 102)%N then Some (n - 87)%N
  else if (65 <=? n)%N && (n <=? 70)%N then Some (n - 55)%N
  else None.

Definition hex_of_byte (b : ascii) : list ascii :=
  let n := N_of_ascii b in [hex_digit (n / 16)%N; hex_digit (n mod 16)%N].

Definition hex_encode (bytes : list ascii) : string :=
  string_of_list_ascii (mjoin (hex_of_byte <$> bytes)).

(** The six payload bits of a continuation byte of UTF-8. *)
Definition continuation (c : ascii) : N := (N_of_ascii c - 128)%N.

(** The UTF-16 code units of a text, read off its UTF-8 bytes: what
    [text.length] counts and what the ["hex"] decoder goes through.  One
    unit for a sequence of one, two or three bytes, a surrogate pair for a
    sequence of four.  A byte that begins no sequence, and a sequence cut
    short by the end of the bytes, stand for no text; they are read as
    U+FFFD. *)
Fixpoint code_units (cs : list ascii) : list N :=
  match cs with
  | [] => []
  | c0 :: rest =>
      let b0 := N_of_ascii c0 in
      if (b0 <? 128)%N then b0 :: code_units rest
      else if (b0 <? 192)%N then 65533%N :: code_units rest
      else if (b0 <? 224)%N then
        match rest with
        | c1 :: rest' =>
            (64 * (b0 - 192) + continuation c1)%N :: code_units rest'
        | _ => 65533%N :: code_units rest
        end
      else if (b0 <? 240)%N then
        match rest with
        | c1 :: c2 :: rest' =>
            (4096 * (b0 - 224) + 64 * continuation c1 + continuation c2)%N
              :: code_units rest'
        | _ => 65533%N :: code_units rest
        end
      else
        match rest with
        | c1 :: c2 :: c3 :: rest' =>
            let v := (262144 * (b0 - 240) + 4096 * continuation c1
                      + 64 * continuation c2 + continuation c3 - 65536)%N in
            (55296 + v / 1024)%N :: (56320 + v mod 1024)%N :: code_units rest'
        | _ => 65533%N :: code_units rest
        end
  end.

(** The digit value of a code unit. *)
Definition unit_hex_value `{BlockCipher} (u : N) : option N :=
  if (u <? 256)%N then hex_value (ascii_of_N u) else wide_hex_value u.

(** Pairs of digits are decoded from the left; decoding stops at the first
    pair that is not two hexadecimal digits. *)
Fixpoint hex_pairs `{BlockCipher} (us : list N) : list ascii :=
  match us with
  | h :: l :: us =>
      match unit_hex_value h, unit_hex_value l with
      | Some x, Some y => ascii_of_N (16 * x + y) :: hex_pairs us
      | _, _ => []
      end
  | _ => []
  end.

(** Outcome of a call that may throw. *)
Inductive result (A : Type) :=
| Returned (a : A)
| Thrown (message : string).
Arguments Returned {A} a.
Arguments Thrown {A} message.

Definition bind {A B} (r : result A) (k : A → result B) : result B :=
  match r with
  | Returned a => k a
  | Thrown m => Thrown m
  end.

(** [try { ... } catch (err) { return null; }] *)
Definition try_catch_null {A} (r : result A) : option A :=
  match r with
  | Returned a => Some a
  | Thrown _ => None
  end.

(** The text with its letters [a]..[f] in upper case. *)
Definition upper_hex (c : ascii) : ascii :=
  let n := N_of_ascii c in
  if (97 <=? n)%N && (n <=? 102)%N then ascii_of_N (n - 32) else c.

Definition uppercase (text : string) : string :=
  string_of_list_ascii (upper_hex <$> list_ascii_of_string text).

(** Input of [update(text, "hex", ...)]: a string of odd [length], in code
    units, is refused, any other is decoded as far as it is hexadecimal. *)
Definition hex_decode `{BlockCipher} (text : string) : result (list ascii) :=
  let us := code_units (list_ascii_of_string text) in
  if Nat.even (length us) then Returned (hex_pairs us)
  else Thrown "The argument 'encoding' is invalid for data of odd length".

(** *** Padding of the last block *)

Definition pad (tail : list ascii) : list ascii :=
  let n := (BLOCK - length tail)%nat in
  tail ++ replicate n (ascii_of_nat n).

Definition unpad (blk : list ascii) : option (list ascii) :=
  match last blk with
  | None => None
  | Some c =>
      let n := nat_of_ascii c in
      if decide ((1 ≤ n)%nat ∧ (n ≤ BLOCK)%nat
                 ∧ drop (length blk - n) blk = replicate n c)
      then Some (take (length blk - n) blk)
      else None
  end.

(** A small block transformation that has the two properties, to run the
    codec on examples: each byte is combined with a byte folded from the
    key, and the block is reversed. *)
Definition demo_key_byte (key : list ascii) : ascii := foldr xor_ascii zero key.

Definition demo_encrypt_block (key b : list ascii) : list ascii :=
  reverse ((λ c, xor_ascii c (demo_key_byte key)) <$> b).

Definition demo_decrypt_block (key b : list ascii) : list ascii :=
  (λ c, xor_ascii c (demo_key_byte key)) <$> reverse b.

Definition demo_wide_hex_value (u : N) : option N :=
  hex_value (ascii_of_N (u mod 256)).

Definition demo_key : list ascii :=
  list_ascii_of_string "an example of a 32-byte long key".

Definition demo_iv : list ascii := list_ascii_of_string "0123456789abcdef".

Section WithKey.
Context `{BlockCipher}.
(** [SECRET_KEY] is the SHA-256 digest of the configured secret and [IV]
    sixteen random bytes, both fixed when the process starts. *)
Variables (SECRET_KEY IV : list ascii).

(** A [Cipher] object in CBC mode: the previous ciphertext block and the
    bytes that do not fill a block yet. *)
Record Cipher := mkCipher { c_chain : list ascii; c_pending : list ascii }.

Definition createCipheriv : Cipher := mkCipher IV [].

Definition cipher_absorb (acc : Cipher * list ascii) (b : ascii)
  : Cipher * list ascii :=
  let buf := c_pending acc.1 ++ [b] in
  if decide (length buf = BLOCK) then
    let ct := encrypt_block SECRET_KEY (xor_bytes buf (c_chain acc.1)) in
    (mkCipher ct [], acc.2 ++ ct)
  else (mkCipher (c_chain acc.1) buf, acc.2).

(** [cipher.update(text, "utf8", "hex")] *)
Definition cipher_update (c : Cipher) (text : string) : Cipher * string :=
  let r := foldl cipher_absorb (c, []) (list_ascii_of_string text) in
  (r.1, hex_encode r.2).

(** [cipher.final("hex")] *)
Definition cipher_final (c : Cipher) : string :=
  hex_encode
    (encrypt_block SECRET_KEY (xor_bytes (pad (c_pending c)) (c_chain c))).

Definition encrypt (text : string) : string :=
  let cipher := createCipheriv in
  let '(cipher, encrypted) := cipher_update cipher text in
  encrypted +:+ cipher_final cipher.

(** A [Decipher] object: as [Cipher], and the last deciphered block, kept
    back until it is known whether it carries the padding. *)
Record Decipher := mkDecipher {
  d_chain : list ascii;
  d_pending : list ascii;
  d_held : option (list ascii)
}.

Definition createDecipheriv : Decipher := mkDecipher IV [] None.

Definition decipher_absorb (acc : Decipher * list ascii) (b : ascii)
  : Decipher * list ascii :=
  let buf := d_pending acc.1 ++ [b] in
  if decide (length buf = BLOCK) then
    let pt := xor_bytes (decrypt_block SECRET_KEY buf) (d_chain acc.1) in
    (mkDecipher buf [] (Some pt), acc.2 ++ default [] (d_held acc.1))
  else (mkDecipher (d_chain acc.1) buf (d_held acc.1), acc.2).

(** [decipher.update(text, "hex", "utf8")] *)
Definition decipher_update (d : Decipher) (text : string)
  : result (Decipher * string) :=
  bind (hex_decode text) (λ bytes,
    let r := foldl decipher_absorb (d, []) bytes in
    Returned (r.1, string_of_list_ascii r.2)).

(** [decipher.final("utf8")] *)
Definition decipher_final (d : Decipher) : result string :=
  match d_pending d, d_held d with
  | [], Some blk =>
      match unpad blk with
      | Some bytes => Returned (string_of_list_ascii bytes)
      | None => Thrown "bad decrypt"
      end
  | _, _ => Thrown "wrong final block length"
  end.

(** The body of the [try] block of [decrypt]. *)
Definition decrypt_body (text : string) : result string :=
  let decipher := createDecipheriv in
  bind (decipher_update decipher text) (λ '(decipher, decrypted),
    bind (decipher_final decipher) (λ last,
      Returned (decrypted +:+ last))).

Definition decrypt (text : string) : option string :=
  try_catch_null (decrypt_body text).

End WithKey.

End Codec.

(** ** The server pool and its health monitor *)

Module Pool.

(** An entry of [config/server.js], with the counter that
    [loadBalancer.js] keeps on it. *)
Record Server := mkServer { url : string; active : bool; connections : Z }.

Definition set_active (a : bool) (s : Server) : Server :=
  mkServer (url s) a (connections s).

(** [server.connections++] and [server.connections--] *)
Definition incr_connections (s : Server) : Server :=
  mkServer (url s) (active s) (connections s + 1).
Definition decr_connections (s : Server) : Server :=
  mkServer (url s) (active s) (connections s - 1).

(** [servers.filter((server) => server.active)]: the objects are shared
    with [servers], so each comes with its position there. *)
Definition activeServers (servers : list Server) : list (nat * Server) :=
  filter (λ p, active p.2 = true) (imap pair servers).

(** [servers.find((server) => server.url === stickyServer && server.active)],
    where [stickyServer] is [null] when the cookie did not decipher. *)
Definition find_sticky (servers : list Server) (stickyServer : option string)
  : option (nat * Server) :=
  list_find (λ server, Some (url server) = stickyServer ∧ active server = true)
            servers.

(** What [await axios.get(...)] does to the loop that waits for it: the
    promise is fulfilled with a response, is rejected, or is never
    settled (the call sets no timeout). *)
Inductive Probe :=
| Fulfilled (status : Z)
| Rejected
| Pending.

(** [`${server.url}/health`] *)
Definition health_target (server : Server) : string := url server +:+ "/health".

(** The backend after its own probe has been settled: active when the
    response has status 200, inactive on any other response and on
    rejection. *)
Definition probed (get : string → Probe) (server : Server) : Server :=
  set_active
    (match get (health_target server) with
     | Fulfilled status => status =? 200
     | _ => false
     end) server.

Definition settles (get : string → Probe) (server : Server) : Prop :=
  get (health_target server) ≠ Pending.

(** One monitor cycle, [healthCheck(servers)]: the requested addresses in
    the order they are requested, and the pool when the cycle has come to
    rest.  The loop resumes after an [await] only when its promise is
    settled. *)
Fixpoint healthCheck (get : string → Probe) (servers : list Server)
  : list string * list Server :=
  match servers with
  | [] => ([], [])
  | server :: rest =>
      let target := health_target server in
      match get target with
      | Fulfilled status =>
          let r := healthCheck get rest in
          (target :: r.1, set_active (status =? 200) server :: r.2)
      | Rejected =>
          let r := healthCheck get rest in
          (target :: r.1, set_active false server :: r.2)
      | Pending => ([target], server :: rest)
      end
  end.

End Pool.

(** ** [loadBalancer.js]: sticky sessions over least connections *)

Module LeastConnections.
Import Pool Codec.

(** [array.reduce(f)] without initial value; [None] stands for the
    [TypeError] on an empty array. *)
Definition reduce {A} (f : A → A → A) (l : list A) : option A :=
  match l with
  | [] => None
  | x :: l => Some (foldl f x l)
  end.

(** [(prev, curr) => prev.connections < curr.connections ? prev : curr] *)
Definition pick (prev curr : nat * Server) : nat * Server :=
  if connections prev.2 <? connections curr.2 then prev else curr.

Definition getLeastLoadedServer (servers : list Server) : option (nat * Server) :=
  let activeServers := activeServers servers in
  if decide (length activeServers = 0%nat) then None
  else reduce pick activeServers.

(** How the handler leaves the request. *)
Inductive Response :=
| ServiceUnavailable503
| Forwarding (target : nat) (setCookie : option string).

(** The pool, and the targets of the forwards that [proxy.web] has started
    and not finished (the latter is not program state: it is what
    [connections] is meant to count). *)
Record State := mkState { servers : list Server; inFlight : list nat }.

(** One forward to [target] is over. *)
Fixpoint finish (target : nat) (pending : list nat) : list nat :=
  match pending with
  | [] => []
  | i :: pending =>
      if decide (i = target) then pending else i :: finish target pending
  end.

Section WithKey.
Context `{BlockCipher}.
Variables (SECRET_KEY IV : list ascii).

(** The proxy handler up to and including [assignedServer.connections++]
    and the call of [proxy.web]. *)
Definition handler (cookie : option string) (st : State) : Response * State :=
  let sticky :=
    match cookie with
    | Some stickyServerEncrypted =>
        if decide (stickyServerEncrypted = "") then None
        else find_sticky (servers st)
                         (decrypt SECRET_KEY IV stickyServerEncrypted)
    | None => None
    end in
  let dispatch (i : nat) (setCookie : option string) :=
    (Forwarding i setCookie,
     mkState (alter incr_connections i (servers st)) (i :: inFlight st)) in
  match sticky with
  | Some (i, _) => dispatch i None
  | None =>
      match getLeastLoadedServer (servers st) with
      | None => (ServiceUnavailable503, st)
      | Some (i, assignedServer) =>
          dispatch i (Some (encrypt SECRET_KEY IV (url assignedServer)))
      end
  end.

(** The forward to [target] ends without error: the callback given to
    [proxy.web] is not called, no statement of the program runs. *)
Definition forward_succeeded (target : nat) (st : State) : State :=
  mkState (servers st) (finish target (inFlight st)).

(** The forward to [target] fails: the callback runs
    [assignedServer.connections--]. *)
Definition forward_failed (target : nat) (st : State) : State :=
  mkState (alter decr_connections target (servers st))
          (finish target (inFlight st)).

Inductive Event :=
| Request (cookie : option string)
| Succeeded (target : nat)
| Failed (target : nat).

Definition step (st : State) (e : Event) : State :=
  match e with
  | Request cookie => (handler cookie st).2
  | Succeeded target => forward_succeeded target st
  | Failed target => forward_failed target st
  end.

Definition run (st : State) (es : list Event) : State := foldl step st es.

(** Only a forward that is under way ends. *)
Definition possible (st : State) (e : Event) : Prop :=
  match e with
  | Request _ => True
  | Succeeded target | Failed target => target ∈ inFlight st
  end.

Fixpoint feasible (st : State) (es : list Event) : Prop :=
  match es with
  | [] => True
  | e :: es => possible st e ∧ feasible (step st e) es
  end.

End WithKey.

(** Forwards to [target] in [es] that end without error. *)
Fixpoint succeeded (target : nat) (es : list Event) : Z :=
  match es with
  | [] => 0
  | Succeeded i :: es =>
      (if decide (i = target) then 1 else 0) + succeeded target es
  | _ :: es => succeeded target es
  end.

(** [servers[i].connections] *)
Definition connections_at (i : nat) (st : State) : option Z :=
  connections <$> (servers st !! i).

(** Number of forwards to [target] that are under way. *)
Definition in_flight (target : nat) (st : State) : Z :=
  Z.of_nat (length (filter (λ i, i = target) (inFlight st))).

End LeastConnections.

(** ** The round-robin variant of the server *)

Module RoundRobin.
Import Pool Codec.

Record State := mkState { servers : list Server; currentServerIndex : nat }.

Inductive Response :=
| ServiceUnavailable503
| Forwarding (target : nat) (setCookie : option string).

Section WithKey.
Context `{BlockCipher}.
Variables (SECRET_KEY IV : list ascii).

(** The proxy handler up to the call of [proxy.web].  When
    [activeServers[currentServerIndex]] is [undefined], reading
    [assignedServer.url] throws, after the index has been advanced. *)
Definition handler (cookie : option string) (st : State)
  : result Response * State :=
  let sticky :=
    match cookie with
    | Some stickyServerEncrypted =>
        if decide (stickyServerEncrypted = "") then None
        else find_sticky (servers st)
               (decrypt SECRET_KEY IV stickyServerEncrypted)
    | None => None
    end in
  match sticky with
  | Some (i, _) => (Returned (Forwarding i None), st)
  | None =>
      let activeServers := activeServers (servers st) in
      if decide (length activeServers = 0%nat) then
        (Returned ServiceUnavailable503, st)
      else
        let assignedServer := activeServers !! currentServerIndex st in
        let st' := mkState (servers st)
                     ((currentServerIndex st + 1) mod length activeServers) in
        match assignedServer with
        | Some (i, server) =>
            (Returned (Forwarding i
                         (Some (encrypt SECRET_KEY IV (url server)))), st')
        | None =>
            (Thrown "Cannot read properties of undefined (reading 'url')", st')
        end
  end.

(** A monitor cycle between two requests changes [active] flags only. *)
Inductive Event :=
| Request (cookie : option string)
| Health (get : string → Probe).

Definition step (st : State) (e : Event) : State :=
  match e with
  | Request cookie => (handler cookie st).2
  | Health get => mkState (healthCheck get (servers st)).2 (currentServerIndex st)
  end.

Definition run (st : State) (es : list Event) : State := foldl step st es.

End WithKey.

End RoundRobin.

(** ** Evenness of the load *)

Module Balance.
Import Pool.

(** No active backend holds more than one connection more than another. *)
Definition balanced (servers : list Server) : Prop :=
  ∀ i j s t,
    servers !! i = Some s → servers !! j = Some t →
    active s = true → active t = true →
    connections s ≤ connections t + 1.

End Balance.

(** ** Cross-origin policy of [loadBalancer.js] *)

Module Cors.
Import Codec.

Definition allowedOrigins : list string :=
  ["https://freelancerhub-five.vercel.app/";
   "https://freelancer-admin.vercel.app/"]%string.

(** [corsOptions.origin]: [callback(null, true)] is [Returned true],
    [callback(new Error(...))] is [Thrown].  [origin] is [None] when the
    request has no [Origin] header; [!origin] also holds of the empty
    string. *)
Definition origin (origin : option string) : result bool :=
  match origin with
  | None => Returned true
  | Some o =>
      if decide (o = "" ∨ o ∈ allowedOrigins) then Returned true
      else Thrown "Not allowed by CORS"
  end.

End Cors.

(** * Properties *)

(** ** Abuse guard *)

Module AbuseGuardFacts.
Import AbuseGuard.

Lemma expired_spec now data :
  expired now data = true ↔ now - startTime data > TIME_WINDOW.
Proof. unfold expired. rewrite Z.ltb_lt. lia. Qed.

(** *** The blocked-address middleware is read-only *)

Lemma check_blocked ip now st :
  ip ∈ blockedIPs st → check ip now st = (Forbidden403, st).
Proof.
  intros Hin. unfold check, blockedMiddleware.
  destruct (decide (ip ∈ blockedIPs st)); [done | contradiction].
Qed.

Lemma check_not_blocked ip now st :
  ip ∉ blockedIPs st → check ip now st = rateLimitMiddleware ip now st.
Proof.
  intros Hin. unfold check, blockedMiddleware.
  destruct (decide (ip ∈ blockedIPs st)); [contradiction | done].
Qed.

(** A request never touches the record or the blocked status of another
    address. *)
Lemma check_other ip ip' now st :
  ip ≠ ip' →
  requestCounts (check ip now st).2 !! ip' = requestCounts st !! ip'
  ∧ (ip' ∈ blockedIPs (check ip now st).2 ↔ ip' ∈ blockedIPs st).
Proof.
  intros Hne. unfold check, blockedMiddleware, rateLimitMiddleware.
  destruct (decide (ip ∈ blockedIPs st)); [done |].
  destruct (requestCounts st !! ip) as [data |]; simpl.
  - repeat case_match; simpl; rewrite ?lookup_insert_ne by done;
      split; try done; set_solver.
  - by rewrite lookup_insert_ne.
Qed.

(** No request removes an address from [blockedIPs]. *)
Lemma check_blocked_mono ip ip' now st :
  ip' ∈ blockedIPs st → ip' ∈ blockedIPs (check ip now st).2.
Proof.
  intros Hin. unfold check, blockedMiddleware, rateLimitMiddleware.
  repeat case_match; simpl; try done; set_solver.
Qed.

(** *** The reaper *)

(** State after the entries [m] have been visited, starting from [st]. *)
Lemma reap_entries_spec now m st ip :
  requestCounts (reap_entries now m st) !! ip =
    match m !! ip with
    | Some data => if expired now data then None else requestCounts st !! ip
    | None => requestCounts st !! ip
    end
  ∧ (ip ∈ blockedIPs (reap_entries now m st) ↔
     ip ∈ blockedIPs st ∧ ¬ ∃ data, m !! ip = Some data ∧ expired now data = true).
Proof.
  unfold reap_entries. revert ip.
  apply (map_fold_weak_ind (λ r m, ∀ ip,
    requestCounts r !! ip =
      match m !! ip with
      | Some data => if expired now data then None else requestCounts st !! ip
      | None => requestCounts st !! ip
      end
    ∧ (ip ∈ blockedIPs r ↔
       ip ∈ blockedIPs st ∧ ¬ ∃ data, m !! ip = Some data ∧ expired now data = true))).
  - intros ip. rewrite lookup_empty. split; [done |].
    split; [| tauto]. intros Hin. split; [done |]. by intros (d & Hd & _).
  - intros i x m' r Hfresh IH ip. destruct (IH ip) as [IHc IHb].
    unfold reap_entry. destruct (decide (i = ip)) as [-> | Hne].
    + rewrite lookup_insert_eq. rewrite Hfresh in IHc, IHb.
      destruct (expired now x) eqn:Hex; simpl.
      * rewrite lookup_delete_eq. split; [done |].
        rewrite elem_of_difference, elem_of_singleton. split.
        -- intros [_ Hne]. by destruct Hne.
        -- intros [_ Hno]. destruct Hno. eauto.
      * split; [done |]. rewrite IHb. split.
        -- intros [Hin _]. split; [done |].
           intros (d & Hd & Hexd). congruence.
        -- intros [Hin _]. split; [done |]. by intros (d & Hd & _).
    + rewrite lookup_insert_ne by done.
      destruct (expired now x) eqn:Hex; simpl.
      * rewrite lookup_delete_ne by done. split; [done |].
        rewrite elem_of_difference, elem_of_singleton, IHb. split.
        -- tauto.
        -- intros [Hin Hno]. repeat split; [done | done | congruence].
      * done.
Qed.

Lemma reaper_lookup now st ip :
  requestCounts (reaper now st) !! ip =
    match requestCounts st !! ip with
    | Some data => if expired now data then None else Some data
    | None => None
    end.
Proof.
  unfold reaper. rewrite (proj1 (reap_entries_spec now _ st ip)).
  destruct (requestCounts st !! ip) as [data |] eqn:E; [| done].
  by destruct (expired now data).
Qed.

Lemma reaper_blocked now st ip :
  ip ∈ blockedIPs (reaper now st) ↔
  ip ∈ blockedIPs st
  ∧ ¬ ∃ data, requestCounts st !! ip = Some data ∧ expired now data = true.
Proof. unfold reaper. apply reap_entries_spec. Qed.

(** C4. Each run of the periodic unblocking callback deletes the record of
    every address whose window has elapsed
    ([now - startTime > TIME_WINDOW]) and removes that address from the
    blocked set, whether or not it was blocked. *)
Theorem reaper_clears_elapsed now st ip data :
  requestCounts st !! ip = Some data →
  now - startTime data > TIME_WINDOW →
  requestCounts (reaper now st) !! ip = None
  ∧ ip ∉ blockedIPs (reaper now st).
Proof.
  intros Hrec Hold. apply expired_spec in Hold. split.
  - by rewrite reaper_lookup, Hrec, Hold.
  - rewrite reaper_blocked. intros [_ Hno]. apply Hno. eauto.
Qed.

Lemma reaper_clears_elapsed_witness :
  let st := mkState {[ "10.0.0.7"%string := mkRate 101 0 ]} {[ "10.0.0.7"%string ]} in
  requestCounts (reaper 60001 st) !! "10.0.0.7"%string = None
  ∧ "10.0.0.7"%string ∉ blockedIPs (reaper 60001 st).
Proof.
  intros st.
  apply (reaper_clears_elapsed 60001 st "10.0.0.7" (mkRate 101 0)).
  - reflexivity.
  - reflexivity.
Defined.

(** A record whose window has not elapsed survives the run, and so does
    the blocked status that goes with it. *)
Lemma reaper_keeps_current now st ip data :
  requestCounts st !! ip = Some data →
  now - startTime data ≤ TIME_WINDOW →
  requestCounts (reaper now st) !! ip = Some data
  ∧ (ip ∈ blockedIPs (reaper now st) ↔ ip ∈ blockedIPs st).
Proof.
  intros Hrec Hcur.
  assert (expired now data = false) as Hex.
  { apply not_true_is_false. rewrite expired_spec. lia. }
  split.
  - by rewrite reaper_lookup, Hrec, Hex.
  - rewrite reaper_blocked. split; [tauto |]. intros Hin. split; [done |].
    intros (d & Hd & Hexd). congruence.
Qed.

(** In every state the guard reaches, a blocked address has a record, so
    the run of the reaper that follows the end of its window unblocks it. *)
Lemma blocked_has_record es ip :
  ip ∈ blockedIPs (run initial es) → is_Some (requestCounts (run initial es) !! ip).
Proof.
  unfold run. induction es as [| e es IH] using rev_ind; simpl.
  - set_solver.
  - rewrite foldl_app. simpl. set (st := foldl step initial es) in *.
    destruct e as [ip' now | now]; simpl.
    + unfold check, blockedMiddleware, rateLimitMiddleware.
      destruct (decide (ip' ∈ blockedIPs st)); simpl; [done |].
      destruct (requestCounts st !! ip') as [data |] eqn:E; simpl;
        repeat case_match; simpl; intros Hin;
        (destruct (decide (ip' = ip)) as [-> |];
         [rewrite ?lookup_insert_eq; eauto
         | rewrite ?lookup_insert_ne by done; apply IH; set_solver]).
    + rewrite reaper_blocked, reaper_lookup. intros [Hin Hno].
      destruct (IH Hin) as [d Hd]. rewrite Hd.
      destruct (expired now d) eqn:Hex; [| eauto].
      exfalso. apply Hno. eauto.
Qed.

(** *** Window rollover *)

(** C5, as the code has it.  A request that arrives more than
    [TIME_WINDOW] after the recorded [startTime] resets the record to
    [{count: 1, startTime: now}] and is passed on, provided the address is
    not blocked; the path changes nothing else.  For a blocked address
    the request is answered 403 and the state stays as it is: the check
    path never unblocks. *)
Theorem rollover_resets_unblocked ip now st data :
  requestCounts st !! ip = Some data →
  now - startTime data > TIME_WINDOW →
  (ip ∉ blockedIPs st →
     check ip now st =
       (Next, mkState (<[ip := mkRate 1 now]> (requestCounts st)) (blockedIPs st)))
  ∧ (ip ∈ blockedIPs st → check ip now st = (Forbidden403, st)).
Proof.
  intros Hrec Hold. split; [| apply check_blocked].
  intros Hfree. rewrite check_not_blocked by done.
  unfold rateLimitMiddleware. rewrite Hrec. simpl.
  assert (expired now (mkRate (count data + 1) (startTime data)) = true) as ->.
  { by apply expired_spec. }
  by rewrite insert_insert_eq.
Qed.

Lemma rollover_resets_unblocked_witness :
  let st := mkState {[ "10.0.0.7"%string := mkRate 42 0 ]} ∅ in
  check "10.0.0.7" 60001 st =
    (Next, mkState (<[ "10.0.0.7"%string := mkRate 1 60001 ]> (requestCounts st)) ∅).
Proof.
  intros st.
  apply (rollover_resets_unblocked "10.0.0.7" 60001 st (mkRate 42 0)).
  - reflexivity.
  - reflexivity.
  - apply not_elem_of_empty.
Defined.

(** C5, as the claim has it, fails: an address blocked at time 0 that
    sends a request two windows later is refused, and its record and its
    blocked status are what they were. *)
Lemma rollover_does_not_unblock :
  let ip := "10.0.0.7"%string in
  let st := mkState {[ ip := mkRate 101 0 ]} {[ ip ]} in
  120000 - startTime (mkRate 101 0) > TIME_WINDOW
  ∧ (check ip 120000 st).1 = Forbidden403
  ∧ requestCounts (check ip 120000 st).2 !! ip = Some (mkRate 101 0)
  ∧ ip ∈ blockedIPs (check ip 120000 st).2.
Proof.
  intros ip st. split; [reflexivity |].
  assert (ip ∈ blockedIPs st) as Hin
    by (unfold st; simpl; apply elem_of_singleton_2; reflexivity).
  rewrite (check_blocked ip 120000 st Hin). simpl. auto.
Qed.

(** *** Blocked addresses *)

Lemma run_blocked_frozen ip es : ∀ st,
  ip ∈ blockedIPs st →
  Forall (spares (requestCounts st !! ip)) es →
  requestCounts (run st es) !! ip = requestCounts st !! ip
  ∧ ip ∈ blockedIPs (run st es).
Proof.
  unfold run. induction es as [| e es IH]; intros st Hin Hsp; [done |].
  apply Forall_cons in Hsp as [He Hes]. simpl.
  assert (requestCounts (step st e) !! ip = requestCounts st !! ip
          ∧ ip ∈ blockedIPs (step st e)) as [Hc Hb].
  { destruct e as [ip' now | now]; simpl.
    - destruct (decide (ip' = ip)) as [-> | Hne].
      + by rewrite check_blocked.
      + destruct (check_other ip' ip now st Hne) as [-> Hiff]. by rewrite Hiff.
    - simpl in He. destruct (requestCounts st !! ip) as [data |] eqn:E.
      + destruct (reaper_keeps_current now st ip data E) as [-> Hiff].
        * assert (expired now data ≠ true) as Hn by congruence.
          rewrite expired_spec in Hn. lia.
        * by rewrite Hiff.
      + rewrite reaper_lookup, E. split; [done |].
        rewrite reaper_blocked. split; [done |]. intros (d & Hd & _). congruence. }
  rewrite <- Hc in Hes |- *. by apply IH.
Qed.

(** C10. A request from a blocked address is answered 403 and changes
    neither [requestCounts] nor [blockedIPs]; whatever requests arrive,
    the record of a blocked address keeps its [count] and [startTime], and
    the address stays blocked, as long as no run of the reaper deletes the
    record. *)
Theorem blocked_request_is_frame ip st :
  ip ∈ blockedIPs st →
  (∀ now, check ip now st = (Forbidden403, st))
  ∧ (∀ es, Forall (spares (requestCounts st !! ip)) es →
       requestCounts (run st es) !! ip = requestCounts st !! ip
       ∧ ip ∈ blockedIPs (run st es)).
Proof.
  intros Hin. split.
  - intros now. by apply check_blocked.
  - intros es. by apply run_blocked_frozen.
Qed.

Lemma blocked_request_is_frame_witness :
  let ip := "10.0.0.7"%string in
  let st := mkState {[ ip := mkRate 101 0 ]} {[ ip ]} in
  (∀ now, check ip now st = (Forbidden403, st))
  ∧ (∀ es, Forall (spares (requestCounts st !! ip)) es →
       requestCounts (run st es) !! ip = requestCounts st !! ip
       ∧ ip ∈ blockedIPs (run st es)).
Proof.
  intros ip st. apply (blocked_request_is_frame ip st).
  unfold st. simpl. apply elem_of_singleton_2. reflexivity.
Defined.

(** *** The limit *)

Lemma step_tracked ip t0 j st e :
  (1 ≤ j)%nat → tracked ip t0 j st → event_time e - t0 ≤ TIME_WINDOW →
  tracked ip t0 (j + length (client_verdicts ip [e] st)) (step st e)
  ∧ ∀ v, client_verdicts ip [e] st !! 0%nat = Some v →
         (v = Next ↔ (j < 100)%nat).
Proof.
  intros Hj Htr Hwin. destruct e as [ip' now | now]; simpl in *.
  - destruct (decide (ip' = ip)) as [-> | Hne]; simpl.
    + unfold tracked in Htr. destruct (decide (j ≤ 100)%nat) as [Hle | Hgt].
      * destruct Htr as [Hrec Hfree].
        rewrite check_not_blocked by done.
        unfold rateLimitMiddleware. rewrite Hrec. simpl.
        assert (expired now (mkRate (Z.of_nat j + 1) t0) = false) as ->.
        { apply not_true_is_false. rewrite expired_spec. simpl. lia. }
        unfold RATE_LIMIT. destruct (100 <? Z.of_nat j + 1) eqn:Hlim; simpl.
        -- apply Z.ltb_lt in Hlim. assert (j = 100%nat) as -> by lia.
           split.
           ++ unfold tracked. simpl. rewrite lookup_insert_eq.
              split; [done |]. set_solver.
           ++ intros v [= <-]. split; [done | lia].
        -- apply Z.ltb_ge in Hlim. split.
           ++ unfold tracked. destruct (decide (j + 1 ≤ 100)%nat); [| lia].
              simpl. rewrite lookup_insert_eq. split; [| done].
              do 2 f_equal. lia.
           ++ intros v [= <-]. split; [lia | done].
      * destruct Htr as [Hrec Hin]. rewrite check_blocked by done. split.
        -- unfold tracked. destruct (decide (j + 1 ≤ 100)%nat); [lia | done].
        -- intros v [= <-]. split; [done | lia].
    + rewrite Nat.add_0_r. split; [| done].
      destruct (check_other ip' ip now st Hne) as [Hc Hb].
      unfold tracked in *. destruct (decide (j ≤ 100)%nat);
        rewrite Hc, Hb; done.
  - rewrite Nat.add_0_r. split; [| done].
    unfold tracked in *.
    destruct (decide (j ≤ 100)%nat); destruct Htr as [Hrec Hb];
      destruct (reaper_keeps_current now st ip _ Hrec) as [-> Hiff];
      simpl; try lia; by rewrite Hiff.
Qed.

Lemma client_verdicts_cons ip e es st :
  client_verdicts ip (e :: es) st =
  client_verdicts ip [e] st ++ client_verdicts ip es (step st e).
Proof. simpl. by rewrite app_nil_r. Qed.

Lemma client_verdicts_one ip e st :
  (length (client_verdicts ip [e] st) ≤ 1)%nat.
Proof. destruct e; simpl; [case_decide |]; simpl; lia. Qed.

Lemma run_tracked ip t0 es : ∀ j st,
  (1 ≤ j)%nat → tracked ip t0 j st →
  Forall (λ e, event_time e - t0 ≤ TIME_WINDOW) es →
  tracked ip t0 (j + length (client_verdicts ip es st)) (run st es)
  ∧ ∀ k v, client_verdicts ip es st !! k = Some v →
           (v = Next ↔ (j + k < 100)%nat).
Proof.
  induction es as [| e es IH]; intros j st Hj Htr Hwin.
  - simpl. rewrite Nat.add_0_r. done.
  - apply Forall_cons in Hwin as [He Hes].
    destruct (step_tracked ip t0 j st e Hj Htr He) as [Htr' Hv].
    destruct (IH (j + length (client_verdicts ip [e] st))%nat (step st e))
      as [Hfin Hrest]; [lia | done | done |].
    rewrite client_verdicts_cons.
    pose proof (client_verdicts_one ip e st) as Hone.
    destruct (client_verdicts ip [e] st) as [| v0 [| ? ?]]; simpl in *; [| | lia].
    + rewrite Nat.add_0_r in *. done.
    + split.
      * replace (j + S (length (client_verdicts ip es (step st e))))%nat
          with (j + 1 + length (client_verdicts ip es (step st e)))%nat by lia.
        exact Hfin.
      * intros [| k] v Hk; simpl in Hk.
        -- rewrite Nat.add_0_r. by apply Hv.
        -- rewrite (Hrest k v Hk). lia.
Qed.

Lemma first_request_tracked ip t0 st :
  opens_window ip t0 st →
  (check ip t0 st).1 = Next ∧ tracked ip t0 1 (check ip t0 st).2.
Proof.
  intros [Hfree Hrec]. rewrite check_not_blocked by done.
  unfold rateLimitMiddleware, tracked.
  destruct (requestCounts st !! ip) as [data |]; simpl.
  - assert (expired t0 (mkRate (count data + 1) (startTime data)) = true) as ->
      by by apply expired_spec.
    simpl. by rewrite lookup_insert_eq.
  - by rewrite lookup_insert_eq.
Qed.

(** C8. With [RATE_LIMIT = 100] and [TIME_WINDOW = 60000], an address that
    opens a window and keeps sending within it has its first 100 requests
    passed on, and its 101st and every later one answered 403, whatever
    other addresses send and whenever the reaper runs within the window;
    once the 101st has been answered the address is in the blocked set. *)
Theorem limit_enforced ip t0 es st :
  opens_window ip t0 st →
  Forall (λ e, event_time e - t0 ≤ TIME_WINDOW) es →
  (∀ k v, client_verdicts ip (Request ip t0 :: es) st !! k = Some v →
          (v = Next ↔ (k < 100)%nat))
  ∧ ((100 < length (client_verdicts ip (Request ip t0 :: es) st))%nat →
     ip ∈ blockedIPs (run st (Request ip t0 :: es))).
Proof.
  intros Hopen Hwin.
  destruct (first_request_tracked ip t0 st Hopen) as [Hfirst Htr].
  destruct (run_tracked ip t0 es 1 _ (le_n 1) Htr Hwin) as [Hfin Hrest].
  simpl client_verdicts. rewrite decide_True by done. simpl.
  change (snd (check ip t0 st)) with (check ip t0 st).2.
  split.
  - intros [| k] v Hk; simpl in Hk.
    + injection Hk as <-. rewrite Hfirst. split; [lia | done].
    + rewrite (Hrest k v Hk). lia.
  - intros Hlen. unfold tracked in Hfin.
    destruct (decide _) as [Hle | _] in Hfin; [lia |]. apply Hfin.
Qed.

Lemma limit_enforced_witness :
  let ip := "10.0.0.7"%string in
  let es := replicate 100 (Request ip 59999) in
  (∀ k v, client_verdicts ip (Request ip 0 :: es) initial !! k = Some v →
          (v = Next ↔ (k < 100)%nat))
  ∧ ((100 < length (client_verdicts ip (Request ip 0 :: es) initial))%nat →
     ip ∈ blockedIPs (run initial (Request ip 0 :: es))).
Proof.
  intros ip es. apply (limit_enforced ip 0 es initial).
  - split; [apply not_elem_of_empty | reflexivity].
  - apply Forall_replicate. simpl. unfold TIME_WINDOW. lia.
Defined.

End AbuseGuardFacts.

(** ** Least-connections selection and the connection counters *)

Module LeastConnectionsFacts.
Import Pool Codec LeastConnections.

(** The fold keeps the last of the entries that carry the least count:
    the entries before it carry no less, the entries after it more. *)
Lemma foldl_pick_split l : ∀ x,
  ∃ pre post,
    x :: l = pre ++ foldl pick x l :: post
    ∧ Forall (λ y, connections (foldl pick x l).2 ≤ connections y.2) pre
    ∧ Forall (λ y, connections (foldl pick x l).2 < connections y.2) post.
Proof.
  induction l as [| c l IH] using rev_ind; intros x.
  - exists [], []. by repeat constructor.
  - destruct (IH x) as (pre & post & Heq & Hpre & Hpost).
    rewrite foldl_app. simpl. set (r := foldl pick x l) in *.
    unfold pick. destruct (connections r.2 <? connections c.2) eqn:Hlt.
    + apply Z.ltb_lt in Hlt. exists pre, (post ++ [c]). split_and!.
      * by rewrite app_comm_cons, Heq, <- app_assoc.
      * done.
      * apply Forall_app. split; [done |]. by repeat constructor.
    + apply Z.ltb_ge in Hlt. exists (pre ++ r :: post), []. split_and!.
      * by rewrite app_comm_cons, Heq, <- app_assoc.
      * apply Forall_app. split.
        -- eapply Forall_impl; [exact Hpre |]. simpl. intros; lia.
        -- constructor; [done |].
           eapply Forall_impl; [exact Hpost |]. simpl. intros; lia.
      * constructor.
Qed.

Lemma elem_of_activeServers servers i s :
  (i, s) ∈ activeServers servers ↔ servers !! i = Some s ∧ active s = true.
Proof.
  unfold activeServers. rewrite list_elem_of_filter, elem_of_lookup_imap. simpl.
  split.
  - intros [Hact (j & y & [= -> ->] & Hl)]. done.
  - intros [Hl Hact]. eauto.
Qed.

(** [filter] keeps the order of the array. *)
Lemma activeServers_sorted servers :
  StronglySorted (λ a b : nat * Server, (a.1 < b.1)%nat) (activeServers servers).
Proof.
  unfold activeServers. induction servers as [| x l IH] using rev_ind.
  - constructor.
  - rewrite imap_app, filter_app. apply StronglySorted_app_2; [| done |].
    + intros [i s] [j t] Hi Hj.
      apply list_elem_of_filter in Hi as [_ Hi], Hj as [_ Hj].
      apply elem_of_lookup_imap in Hi as (i' & y & [= -> ->] & Hl).
      apply lookup_lt_Some in Hl.
      apply elem_of_lookup_imap in Hj as (j' & z & [= -> ->] & _).
      simpl. lia.
    + simpl. destruct (decide (active x = true)).
      * rewrite filter_cons_True by done. repeat constructor.
      * rewrite filter_cons_False by done. constructor.
Qed.

Lemma getLeastLoadedServer_unfold servers :
  getLeastLoadedServer servers =
    match activeServers servers with
    | [] => None
    | x :: l => Some (foldl pick x l)
    end.
Proof.
  unfold getLeastLoadedServer.
  destruct (activeServers servers) as [| x l]; reflexivity.
Qed.

(** C2, as the code has it.  When some backend is active,
    [getLeastLoadedServer] returns an active backend whose [connections]
    is least among the active ones; when several active backends share
    the least count, it returns the one latest in the order of the
    [servers] array. *)
Theorem least_loaded_is_last_minimum servers :
  (∃ s, s ∈ servers ∧ active s = true) →
  ∃ i s,
    getLeastLoadedServer servers = Some (i, s)
    ∧ servers !! i = Some s ∧ active s = true
    ∧ ∀ j s', servers !! j = Some s' → active s' = true →
        connections s ≤ connections s'
        ∧ (connections s' = connections s → (j ≤ i)%nat).
Proof.
  intros (s0 & Hs0 & Hact0).
  apply list_elem_of_lookup in Hs0 as [i0 Hi0].
  assert ((i0, s0) ∈ activeServers servers) as Hin0
    by by apply elem_of_activeServers.
  rewrite getLeastLoadedServer_unfold.
  pose proof (activeServers_sorted servers) as Hsorted.
  destruct (activeServers servers) as [| x l] eqn:Hactive; [by inv Hin0 |].
  destruct (foldl_pick_split l x) as (pre & post & Heq & Hpre & Hpost).
  destruct (foldl pick x l) as [i s] eqn:Hr. simpl in *.
  assert ((i, s) ∈ activeServers servers) as Hin.
  { rewrite Hactive, Heq. apply elem_of_app. right. constructor. }
  apply elem_of_activeServers in Hin as [Hi Hact].
  exists i, s. split_and!; try done.
  intros j s' Hj Hact'.
  assert ((j, s') ∈ pre ++ (i, s) :: post) as Hin'.
  { rewrite <- Heq, <- Hactive. by apply elem_of_activeServers. }
  rewrite Heq in Hsorted.
  apply elem_of_app in Hin' as [Hin' | Hin'].
  - rewrite Forall_forall in Hpre. specialize (Hpre _ Hin'). simpl in Hpre.
    split; [done |]. intros _.
    assert (((j, s').1 < (i, s).1)%nat) as Hlt; [| simpl in Hlt; lia].
    apply (StronglySorted_app_1_elem_of _ _ _ _ _ Hsorted Hin'). constructor.
  - apply elem_of_cons in Hin' as [[= -> ->] | Hin'].
    + split; [lia | done].
    + rewrite Forall_forall in Hpost. specialize (Hpost _ Hin'). simpl in Hpost.
      split; lia.
Qed.

Lemma least_loaded_is_last_minimum_witness :
  ∃ i s,
    getLeastLoadedServer
      [mkServer "https://a.example" true 2; mkServer "https://b.example" true 1;
       mkServer "https://c.example" true 1] = Some (i, s)
    ∧ [mkServer "https://a.example" true 2; mkServer "https://b.example" true 1;
       mkServer "https://c.example" true 1] !! i = Some s
    ∧ active s = true
    ∧ ∀ j s',
        [mkServer "https://a.example" true 2; mkServer "https://b.example" true 1;
         mkServer "https://c.example" true 1] !! j = Some s' →
        active s' = true →
        connections s ≤ connections s'
        ∧ (connections s' = connections s → (j ≤ i)%nat).
Proof.
  apply (least_loaded_is_last_minimum
           [mkServer "https://a.example" true 2; mkServer "https://b.example" true 1;
            mkServer "https://c.example" true 1]).
  exists (mkServer "https://a.example" true 2). split; [| reflexivity].
  constructor.
Defined.

(** C2, as the claim has it, fails for the tie-break: of two active
    backends that both hold the least count, the one registered first is
    passed over for the one registered second. *)
Lemma least_loaded_tie_takes_later :
  let a := mkServer "https://a.example" true 0 in
  let b := mkServer "https://b.example" true 0 in
  connections a = connections b
  ∧ getLeastLoadedServer [a; b] = Some (1%nat, b)
  ∧ getLeastLoadedServer [a; b] ≠ Some (0%nat, a).
Proof. intros a b. split_and!; [reflexivity | reflexivity | discriminate]. Qed.

(** *** The [connections] counter *)

Section WithKey.
Context `{BlockCipher}.
Variables (SECRET_KEY IV : list ascii).

Lemma getLeastLoadedServer_Some servers i s :
  getLeastLoadedServer servers = Some (i, s) →
  servers !! i = Some s ∧ active s = true.
Proof.
  rewrite getLeastLoadedServer_unfold.
  destruct (activeServers servers) as [| x l] eqn:Hactive; [done |].
  intros [= Hr]. apply elem_of_activeServers. rewrite Hactive.
  destruct (foldl_pick_split l x) as (pre & post & -> & _).
  rewrite Hr. apply elem_of_app. right. constructor.
Qed.

(** The handler answers 503 and changes nothing, or it picks a backend
    of the pool, counts one more connection on it and starts a
    forward. *)
Lemma handler_cases cookie st :
  handler SECRET_KEY IV cookie st = (ServiceUnavailable503, st)
  ∨ ∃ i setCookie,
      (i < length (servers st))%nat
      ∧ handler SECRET_KEY IV cookie st =
          (Forwarding i setCookie,
           mkState (alter incr_connections i (servers st)) (i :: inFlight st)).
Proof.
  unfold handler.
  destruct (match cookie with
            | Some c => if decide (c = "") then None
                        else find_sticky (servers st) (decrypt SECRET_KEY IV c)
            | None => None
            end) as [[i s] |] eqn:Hsticky.
  - right. exists i, None. split; [| done].
    assert (find_sticky (servers st) (decrypt SECRET_KEY IV (default "" cookie))
            = Some (i, s)) as Hfind.
    { destruct cookie as [c |]; [| done]. simpl. by destruct (decide (c = "")). }
    apply list_find_Some in Hfind as (Hl & _). by apply lookup_lt_Some in Hl.
  - destruct (getLeastLoadedServer (servers st)) as [[i s] |] eqn:Hleast.
    + right. eexists i, _. split; [| done].
      apply getLeastLoadedServer_Some in Hleast as [Hl _].
      by apply lookup_lt_Some in Hl.
    + by left.
Qed.

Lemma in_flight_cons i j pending servers :
  in_flight i (mkState servers (j :: pending)) =
    (if decide (j = i) then 1 else 0) + in_flight i (mkState servers pending).
Proof.
  unfold in_flight. simpl. rewrite filter_cons.
  destruct (decide (j = i)); simpl; lia.
Qed.

Lemma in_flight_finish i target pending servers servers' :
  target ∈ pending →
  in_flight i (mkState servers' (finish target pending)) =
    in_flight i (mkState servers pending) - (if decide (target = i) then 1 else 0).
Proof.
  unfold in_flight. simpl. induction pending as [| j pending IH]; intros Hin.
  - by apply elem_of_nil in Hin.
  - simpl. destruct (decide (j = target)) as [-> | Hne].
    + rewrite filter_cons. destruct (decide (target = i)); simpl; lia.
    + apply elem_of_cons in Hin as [-> | Hin]; [done |].
      rewrite !filter_cons. specialize (IH Hin).
      destruct (decide (j = i)); simpl in *; lia.
Qed.

(** One event moves the counter of backend [i] by what it adds to the
    forwards under way, except that the end of a forward without error
    leaves the counter where it is. *)
Lemma step_drift st e i c :
  possible st e → connections_at i st = Some c →
  connections_at i (step SECRET_KEY IV st e) =
    Some (c + (in_flight i (step SECRET_KEY IV st e) - in_flight i st)
            + succeeded i [e]).
Proof.
  unfold connections_at. intros Hposs Hc.
  destruct (servers st !! i) as [s |] eqn:Hs; [| done].
  injection Hc as <-. destruct st as [servers pending]. simpl in *.
  destruct e as [cookie | target | target]; simpl.
  - destruct (handler_cases cookie (mkState servers pending))
      as [-> | (j & setCookie & Hj & ->)]; simpl.
    + rewrite Hs. simpl. unfold in_flight. simpl. f_equal. lia.
    + rewrite in_flight_cons. destruct (decide (j = i)) as [-> | Hne].
      * rewrite list_lookup_alter_eq, Hs. simpl. unfold in_flight. simpl. f_equal. lia.
      * rewrite list_lookup_alter_ne, Hs by done. simpl. unfold in_flight. simpl. f_equal. lia.
  - unfold forward_succeeded. simpl.
    rewrite (in_flight_finish i target pending servers) by done.
    rewrite Hs. simpl. unfold in_flight. simpl. f_equal.
    destruct (decide (target = i)); lia.
  - unfold forward_failed. simpl.
    rewrite (in_flight_finish i target pending servers) by done.
    destruct (decide (target = i)) as [-> | Hne].
    + rewrite list_lookup_alter_eq, Hs. simpl. unfold in_flight. simpl. f_equal. lia.
    + rewrite list_lookup_alter_ne, Hs by done. simpl. unfold in_flight. simpl. f_equal. lia.
Qed.

(** Over any run, the counter of a backend exceeds the forwards under
    way to it by the number of forwards that ended without error. *)
Lemma run_drift es : ∀ st i c,
  feasible SECRET_KEY IV st es → connections_at i st = Some c →
  connections_at i (run SECRET_KEY IV st es) =
    Some (c + (in_flight i (run SECRET_KEY IV st es) - in_flight i st)
            + succeeded i es).
Proof.
  induction es as [| e es IH]; intros st i c Hfeas Hc.
  - simpl. rewrite Hc. f_equal. lia.
  - destruct Hfeas as [Hposs Hfeas].
    pose proof (step_drift st e i c Hposs Hc) as Hstep.
    unfold run in *. simpl foldl. rewrite (IH _ _ _ Hfeas Hstep). f_equal.
    change (succeeded i (e :: es)) with
      (match e with
       | Succeeded j => (if decide (j = i) then 1 else 0) + succeeded i es
       | _ => succeeded i es
       end).
    simpl succeeded. destruct e; lia.
Qed.

(** C1, on the code.  One backend, one request without cookie: after the
    dispatch the counter and the number of forwards under way are both 1;
    when that forward ends without error the number of forwards under
    way is 0 and the counter is still 1.  Only the error callback
    decrements: had the forward failed, the counter would be back at 0. *)
Theorem connections_kept_after_success :
  let st0 := mkState [mkServer "https://a.example" true 0] [] in
  let dispatched := run SECRET_KEY IV st0 [Request None] in
  let ended_well := run SECRET_KEY IV st0 [Request None; Succeeded 0] in
  let ended_in_error := run SECRET_KEY IV st0 [Request None; Failed 0] in
  (connections_at 0 dispatched = Some 1 ∧ in_flight 0 dispatched = 1)
  ∧ (connections_at 0 ended_well = Some 1 ∧ in_flight 0 ended_well = 0)
  ∧ (connections_at 0 ended_in_error = Some 0 ∧ in_flight 0 ended_in_error = 0).
Proof. repeat split. Qed.

End WithKey.

End LeastConnectionsFacts.

Module PoolFacts.
Import Pool.

Lemma healthCheck_app get pre rest :
  Forall (settles get) pre →
  healthCheck get (pre ++ rest) =
    ((health_target <$> pre) ++ (healthCheck get rest).1,
     (probed get <$> pre) ++ (healthCheck get rest).2).
Proof.
  induction 1 as [| s pre Hs _ IH]; simpl.
  - by destruct (healthCheck get rest).
  - rewrite IH. unfold settles in Hs. unfold probed.
    destruct (get (health_target s)); simpl; [done | done | by destruct Hs].
Qed.

(** C9, as the code has it.  A monitor cycle probes the backends one
    after another, in the order of the pool.  As long as each probe is
    settled, by a response or by a failure, every backend is probed and
    its flag is set from its own probe alone; a probe that is never
    settled ends the cycle: no later backend is probed and the later
    flags stay as they were. *)
Theorem healthCheck_sequential get pre :
  Forall (settles get) pre →
  healthCheck get pre = (health_target <$> pre, probed get <$> pre)
  ∧ ∀ s post, get (health_target s) = Pending →
      healthCheck get (pre ++ s :: post) =
        (health_target <$> (pre ++ [s]), (probed get <$> pre) ++ s :: post).
Proof.
  intros Hpre. split.
  - rewrite <- (app_nil_r pre) at 1. rewrite healthCheck_app by done.
    simpl. by rewrite !app_nil_r.
  - intros s post Hs. rewrite healthCheck_app by done.
    simpl. rewrite Hs. simpl. by rewrite fmap_app.
Qed.

Lemma healthCheck_sequential_witness :
  let a := mkServer "https://a.example" true 0 in
  let b := mkServer "https://b.example" true 0 in
  let get := λ target : string,
    if decide (target = "https://a.example/health"%string) then Rejected
    else if decide (target = "https://b.example/health"%string) then Fulfilled 200
    else Pending in
  healthCheck get [a; b] = (health_target <$> [a; b], probed get <$> [a; b])
  ∧ ∀ s post, get (health_target s) = Pending →
      healthCheck get ([a; b] ++ s :: post) =
        (health_target <$> ([a; b] ++ [s]), (probed get <$> [a; b]) ++ s :: post).
Proof.
  intros a b get. apply (healthCheck_sequential get [a; b]).
  repeat constructor; unfold settles; vm_compute; discriminate.
Defined.

(** C9, as the claim has it, fails: while the probe of the first backend
    stays unanswered, the second backend, which would answer 200, is not
    probed and keeps its stale flag. *)
Lemma pending_probe_stops_cycle :
  let a := mkServer "https://a.example" true 0 in
  let b := mkServer "https://b.example" false 0 in
  let get := (λ target : string,
    if decide (target = "https://a.example/health"%string) then Pending
    else Fulfilled 200) in
  get (health_target b) = Fulfilled 200
  ∧ healthCheck get [a; b] = ([health_target a], [a; b])
  ∧ (health_target b ∉ fst (healthCheck get [a; b]))
  ∧ snd (healthCheck get [a; b]) !! 1%nat = Some b.
Proof.
  intros a b get. split_and!; try reflexivity.
  intros Hin. apply list_elem_of_singleton in Hin. discriminate Hin.
Qed.

End PoolFacts.

(** ** Round-robin selection *)

Module RoundRobinFacts.
Import Pool Codec RoundRobin.

Section WithKey.
Context `{BlockCipher}.
Variables (SECRET_KEY IV : list ascii).

(** After a selection by the cursor, the cursor is below the size of
    the active set that selection saw. *)
Lemma handler_advances_modulo st :
  activeServers (servers st) ≠ [] →
  currentServerIndex (handler SECRET_KEY IV None st).2 =
    ((currentServerIndex st + 1) mod length (activeServers (servers st)))%nat
  ∧ (currentServerIndex (handler SECRET_KEY IV None st).2
     < length (activeServers (servers st)))%nat.
Proof.
  intros Hne. unfold handler. simpl.
  destruct (decide (length (activeServers (servers st)) = 0%nat)) as [Hz | Hnz].
  - by apply length_zero_iff_nil in Hz.
  - assert (∀ r : result Response * State,
              r.2 = mkState (servers st)
                      ((currentServerIndex st + 1)
                         mod length (activeServers (servers st))) →
              currentServerIndex r.2 =
                ((currentServerIndex st + 1)
                   mod length (activeServers (servers st)))%nat
              ∧ (currentServerIndex r.2
                 < length (activeServers (servers st)))%nat) as Hgoal.
    { intros r ->. simpl. split; [done |]. by apply Nat.mod_upper_bound. }
    apply Hgoal. by destruct (activeServers (servers st) !! currentServerIndex st)
      as [[i server] |].
Qed.

(** A cursor inside the active set yields a backend of that set. *)
Lemma handler_in_range st :
  (currentServerIndex st < length (activeServers (servers st)))%nat →
  ∃ i server,
    activeServers (servers st) !! currentServerIndex st = Some (i, server)
    ∧ (handler SECRET_KEY IV None st).1 =
        Returned (Forwarding i (Some (encrypt SECRET_KEY IV (url server)))).
Proof.
  intros Hlt. destruct (lookup_lt_is_Some_2 _ _ Hlt) as [[i server] Hl].
  exists i, server. split; [done |]. unfold handler. simpl.
  destruct (decide _) as [Hz | _]; [lia |]. by rewrite Hl.
Qed.

(** C3, on the code.  Three active backends; two requests without
    cookie move the cursor to 2; a monitor cycle then finds the second
    and third backend down.  The next request without cookie reads
    index 2 of an active set of size 1, gets [undefined], and the
    handler throws; the cursor has been advanced modulo that size. *)
Theorem cursor_outside_active_set :
  let a := mkServer "https://a.example" true 0 in
  let b := mkServer "https://b.example" true 0 in
  let c := mkServer "https://c.example" true 0 in
  let get := λ target : string,
    if decide (target = "https://a.example/health"%string) then Fulfilled 200
    else Rejected in
  let st := run SECRET_KEY IV (mkState [a; b; c] 0)
                [Request None; Request None; Health get] in
  currentServerIndex st = 2%nat
  ∧ activeServers (servers st) = [(0%nat, a)]
  ∧ activeServers (servers st) !! currentServerIndex st = None
  ∧ (handler SECRET_KEY IV None st).1 =
      Thrown "Cannot read properties of undefined (reading 'url')"
  ∧ currentServerIndex (handler SECRET_KEY IV None st).2 = 0%nat.
Proof. repeat split. Qed.

End WithKey.

End RoundRobinFacts.

(** ** The affinity codec *)

Module CodecFacts.
Import Codec.

(** *** Bytes *)

Lemma xor_ascii_cancel a b : xor_ascii (xor_ascii a b) b = a.
Proof.
  destruct a as [a0 a1 a2 a3 a4 a5 a6 a7], b as [b0 b1 b2 b3 b4 b5 b6 b7].
  simpl. f_equal; match goal with |- xorb (xorb ?p ?q) ?q = ?p => by destruct p, q end.
Qed.

Lemma xor_bytes_length x y :
  length x = length y → length (xor_bytes x y) = length x.
Proof. intros Hlen. unfold xor_bytes. rewrite length_zip_with. lia. Qed.

Lemma xor_bytes_cancel x : ∀ y,
  length x = length y → xor_bytes (xor_bytes x y) y = x.
Proof.
  unfold xor_bytes. induction x as [| a x IH]; intros [| b y] Hlen;
    simpl in *; try done.
  rewrite xor_ascii_cancel, IH; [done | lia].
Qed.

(** *** Hexadecimal text *)

Lemma string_of_list_ascii_app l k :
  string_of_list_ascii (l ++ k) = string_of_list_ascii l +:+ string_of_list_ascii k.
Proof. induction l as [| c l IH]; simpl; [done | by rewrite IH]. Qed.

Lemma hex_encode_app l k : hex_encode (l ++ k) = hex_encode l +:+ hex_encode k.
Proof.
  unfold hex_encode. by rewrite fmap_app, join_app, string_of_list_ascii_app.
Qed.

(** Text in the 128 characters of ASCII has one code unit for each
    byte, whatever follows it. *)
Lemma code_units_ascii cs rest :
  Forall (λ c, (N_of_ascii c < 128)%N) cs →
  code_units (cs ++ rest) = (N_of_ascii <$> cs) ++ code_units rest.
Proof.
  induction 1 as [| c cs Hc _ IH]; [done |].
  rewrite <- app_comm_cons, fmap_cons, <- app_comm_cons, <- IH.
  apply N.ltb_lt in Hc. cbn [code_units]. by rewrite Hc.
Qed.

Lemma join_ascii (f : ascii → list ascii) bytes :
  (∀ b, forallb (λ c, (N_of_ascii c <? 128)%N) (f b) = true) →
  Forall (λ c, (N_of_ascii c < 128)%N) (mjoin (f <$> bytes)).
Proof.
  intros Hf. apply Forall_forall. intros c Hin.
  apply list_elem_of_join in Hin as (l & Hc & Hl).
  apply list_elem_of_fmap in Hl as (b & -> & _).
  specialize (Hf b). rewrite forallb_forall in Hf.
  apply list_elem_of_In, Hf in Hc. by apply N.ltb_lt.
Qed.

Section Hex.
Context `{BlockCipher}.

Lemma hex_pairs_of_byte b rest :
  hex_pairs ((N_of_ascii <$> hex_of_byte b) ++ rest) = b :: hex_pairs rest.
Proof. destruct b as [[] [] [] [] [] [] [] []]; reflexivity. Qed.


(** Digits written byte by byte, two for each byte, are read back. *)
Lemma hex_pairs_written (f : ascii → list ascii) bytes rest :
  (∀ b rest, hex_pairs ((N_of_ascii <$> f b) ++ rest) = b :: hex_pairs rest) →
  hex_pairs ((N_of_ascii <$> mjoin (f <$> bytes)) ++ rest) = bytes ++ hex_pairs rest.
Proof.
  intros Hf. induction bytes as [| b bytes IH]; [done |].
  rewrite fmap_cons. change (mjoin (?x :: ?l)) with (x ++ mjoin l).
  by rewrite fmap_app, <- app_assoc, Hf, IH.
Qed.

Lemma written_length (f : ascii → list ascii) bytes :
  (∀ b, length (f b) = 2%nat) →
  length (mjoin (f <$> bytes)) = (2 * length bytes)%nat.
Proof.
  intros Hf. induction bytes as [| b bytes IH]; [done |].
  rewrite fmap_cons. change (mjoin (?x :: ?l)) with (x ++ mjoin l).
  rewrite length_app, IH, Hf. simpl. lia.
Qed.

(** Digits written byte by byte, followed by text of an even number of
    code units that does not begin with two digits, decode to the bytes. *)
Lemma hex_decode_written (f : ascii → list ascii) bytes junk :
  (∀ b, forallb (λ c, (N_of_ascii c <? 128)%N) (f b) = true) →
  (∀ b, length (f b) = 2%nat) →
  (∀ b rest, hex_pairs ((N_of_ascii <$> f b) ++ rest) = b :: hex_pairs rest) →
  Nat.even (length (code_units junk)) = true →
  hex_pairs (code_units junk) = [] →
  hex_decode (string_of_list_ascii (mjoin (f <$> bytes) ++ junk)) = Returned bytes.
Proof.
  intros Hascii Hlen Hpairs Heven Hstop. unfold hex_decode.
  rewrite list_ascii_of_string_of_list_ascii, code_units_ascii
    by (by apply join_ascii).
  rewrite hex_pairs_written, Hstop, app_nil_r by done.
  rewrite length_app, !length_fmap, written_length by done.
  replace (Nat.even (2 * length bytes + length (code_units junk))) with true;
    [done |].
  symmetry. rewrite Nat.even_add, Heven.
  replace (Nat.even (2 * length bytes)) with true; [done |].
  symmetry. apply Nat.even_spec. by exists (length bytes).
Qed.

End Hex.

Lemma hex_encode_length bytes :
  length (mjoin (hex_of_byte <$> bytes)) = (2 * length bytes)%nat.
Proof.
  induction bytes as [| b bytes IH]; [done |].
  rewrite fmap_cons. change (mjoin (?x :: ?l)) with (x ++ mjoin l).
  rewrite length_app, IH. simpl. lia.
Qed.

Lemma hex_of_byte_ascii b :
  forallb (λ c, (N_of_ascii c <? 128)%N) (hex_of_byte b) = true.
Proof. destruct b as [[] [] [] [] [] [] [] []]; reflexivity. Qed.

(** Decoding the encoding of [bytes] succeeds and gives [bytes]. *)
Lemma hex_decode_encode `{BlockCipher} bytes :
  hex_decode (hex_encode bytes) = Returned bytes.
Proof.
  unfold hex_encode. rewrite <- (app_nil_r (mjoin _)).
  apply hex_decode_written; try done.
  - apply hex_of_byte_ascii.
  - apply hex_pairs_of_byte.
Qed.

Lemma list_ascii_of_string_app a b :
  list_ascii_of_string (a +:+ b) = list_ascii_of_string a ++ list_ascii_of_string b.
Proof. induction a as [| c a IH]; simpl; [done | by rewrite IH]. Qed.




(** Encoding writes lower-case digits only. *)
Lemma hex_encode_lower bytes c :
  c ∈ list_ascii_of_string (hex_encode bytes) → c ∈ lower_hex_digits.
Proof.
  unfold hex_encode. rewrite list_ascii_of_string_of_list_ascii.
  intros Hin. apply list_elem_of_join in Hin as (l & Hc & Hl).
  apply list_elem_of_fmap in Hl as (b & -> & _).
  assert (forallb (λ c, bool_decide (c ∈ lower_hex_digits)) (hex_of_byte b) = true)
    as Hall by (destruct b as [[] [] [] [] [] [] [] []]; reflexivity).
  rewrite forallb_forall in Hall. apply list_elem_of_In, Hall in Hc.
  by apply bool_decide_eq_true in Hc.
Qed.

(** *** Padding *)

Lemma unpad_pad tail :
  (length tail < BLOCK)%nat → unpad (pad tail) = Some tail.
Proof.
  unfold BLOCK. intros Hlen. unfold unpad, pad, BLOCK.
  set (n := (16 - length tail)%nat).
  assert (1 ≤ n ≤ 16)%nat as Hn by lia.
  assert (replicate n (ascii_of_nat n) =
          replicate (n - 1) (ascii_of_nat n) ++ [ascii_of_nat n]) as Hsnoc.
  { replace n with (n - 1 + 1)%nat at 1 by lia. by rewrite replicate_add. }
  rewrite Hsnoc at 1. rewrite app_assoc, last_snoc.
  rewrite nat_ascii_embedding by lia.
  rewrite length_app, length_replicate.
  replace (length tail + n - n)%nat with (length tail) by lia.
  rewrite drop_app_length, take_app_length.
  rewrite decide_True; [done |]. split_and!; [lia | lia | done].
Qed.

Lemma pad_length tail : (length tail < BLOCK)%nat → length (pad tail) = BLOCK.
Proof. unfold pad, BLOCK. intros. rewrite length_app, length_replicate. lia. Qed.

(** *** The example cipher *)

Lemma demo_encrypt_block_length key b :
  length b = BLOCK → length (demo_encrypt_block key b) = BLOCK.
Proof.
  intros Hlen. unfold demo_encrypt_block. by rewrite length_reverse, length_fmap.
Qed.

Lemma demo_decrypt_encrypt_block key b :
  length b = BLOCK → demo_decrypt_block key (demo_encrypt_block key b) = b.
Proof.
  intros _. unfold demo_decrypt_block, demo_encrypt_block.
  rewrite reverse_involutive, <- list_fmap_compose.
  induction b as [| c b IH]; [done |].
  rewrite fmap_cons, IH. simpl. by rewrite xor_ascii_cancel.
Qed.

Definition demo_cipher : BlockCipher :=
  Build_BlockCipher demo_encrypt_block demo_decrypt_block demo_wide_hex_value
                    demo_encrypt_block_length demo_decrypt_encrypt_block.

(** *** Cipher and decipher objects *)

Section WithKey.
Context `{BlockCipher}.
Variables (SECRET_KEY IV : list ascii).

Local Abbreviation absorb_d := (decipher_absorb SECRET_KEY).
Local Abbreviation absorb_c := (cipher_absorb SECRET_KEY).

(** Bytes that do not complete a block are only buffered. *)
Lemma decipher_absorb_partial bytes : ∀ d out,
  (length (d_pending d) + length bytes < BLOCK)%nat →
  foldl absorb_d (d, out) bytes =
    (mkDecipher (d_chain d) (d_pending d ++ bytes) (d_held d), out).
Proof.
  unfold BLOCK. induction bytes as [| b bytes IH]; intros d out Hlen; simpl in *.
  - rewrite app_nil_r. by destruct d.
  - unfold decipher_absorb at 2. simpl.
    rewrite decide_False by (rewrite length_app; unfold BLOCK; simpl; lia).
    rewrite IH by (simpl; rewrite length_app; simpl; lia).
    simpl. by rewrite <- app_assoc.
Qed.

(** A whole block, arriving when nothing is buffered, is deciphered and
    kept back; the block kept back before is released. *)
Lemma decipher_absorb_block d out ct :
  d_pending d = [] → length ct = BLOCK →
  foldl absorb_d (d, out) ct =
    (mkDecipher ct [] (Some (xor_bytes (decrypt_block SECRET_KEY ct) (d_chain d))),
     out ++ default [] (d_held d)).
Proof.
  unfold BLOCK. intros Hpend Hlen.
  destruct ct as [| c ct _] using rev_ind; [done |].
  rewrite length_app in Hlen. simpl in Hlen.
  rewrite foldl_snoc, decipher_absorb_partial
    by (rewrite Hpend; unfold BLOCK; simpl; lia).
  unfold decipher_absorb. simpl. rewrite Hpend. simpl.
  rewrite decide_True by (rewrite length_app; unfold BLOCK; simpl; lia).
  done.
Qed.


(** A token is the encoding of the bytes the cipher has put out. *)
Lemma encrypt_is_hex x :
  ∃ bytes, encrypt SECRET_KEY IV x = hex_encode bytes.
Proof.
  unfold encrypt, cipher_update, cipher_final.
  destruct (foldl absorb_c _ _) as [c out]. cbn [fst snd].
  rewrite <- hex_encode_app. eauto.
Qed.




Hypothesis IV_length : length IV = BLOCK.

(** What the decipher has made of the output of the cipher, after the
    cipher has taken in the bytes [p]. *)
Lemma cipher_decipher_simulation p :
  let r := foldl absorb_c (createCipheriv IV, []) p in
  let r' := foldl absorb_d (createDecipheriv IV, []) r.2 in
  (length (c_pending r.1) < BLOCK)%nat
  ∧ length (c_chain r.1) = BLOCK
  ∧ d_chain r'.1 = c_chain r.1
  ∧ d_pending r'.1 = []
  ∧ r'.2 ++ default [] (d_held r'.1) ++ c_pending r.1 = p.
Proof.
  induction p as [| b p IH] using rev_ind.
  - unfold BLOCK in *. simpl. split_and!; try done; lia.
  - cbv zeta in *. rewrite foldl_snoc.
    destruct (foldl absorb_c (createCipheriv IV, []) p) as [c out].
    unfold cipher_absorb. cbn [fst snd] in *.
    destruct (decide (length (c_pending c ++ [b]) = BLOCK)) as [Hfull | Hpart];
      cbn [fst snd c_pending c_chain].
    + rewrite foldl_app.
      destruct (foldl absorb_d (createDecipheriv IV, []) out) as [d dout].
      cbn [fst snd] in IH. destruct IH as (Hpend & Hchain & Hsame & Hnone & Hout).
      set (buf := c_pending c ++ [b]) in *.
      assert (length (xor_bytes buf (c_chain c)) = BLOCK) as Hx.
      { rewrite xor_bytes_length; congruence. }
      rewrite decipher_absorb_block;
        [| done | by apply encrypt_block_length].
      cbn [fst snd d_chain d_pending d_held default].
      rewrite decrypt_encrypt_block by done.
      rewrite Hsame, xor_bytes_cancel by congruence.
      split_and!; try done.
      * unfold BLOCK; simpl; lia.
      * by apply encrypt_block_length.
      * rewrite app_nil_r. subst buf. rewrite <- Hout.
        by rewrite <- !app_assoc.
    + destruct (foldl absorb_d (createDecipheriv IV, []) out) as [d dout].
      cbn [fst snd] in IH. destruct IH as (Hpend & Hchain & Hsame & Hnone & Hout).
      split_and!; try done.
      * rewrite length_app in *. simpl in *. unfold BLOCK in *. lia.
      * rewrite <- Hout. by rewrite <- !app_assoc.
Qed.

(** Every text that decodes to the bytes of the token of [x] deciphers
    to [x]. *)
Lemma token_deciphers x :
  ∃ bytes,
    encrypt SECRET_KEY IV x = hex_encode bytes
    ∧ ∀ text, hex_decode text = Returned bytes →
        decrypt SECRET_KEY IV text = Some x.
Proof.
  pose proof (cipher_decipher_simulation (list_ascii_of_string x)) as Hsim.
  unfold encrypt, cipher_update, cipher_final. cbv zeta in Hsim.
  destruct (foldl absorb_c (createCipheriv IV, []) (list_ascii_of_string x))
    as [c out].
  cbn [fst snd] in *. rewrite <- hex_encode_app.
  eexists. split; [reflexivity |]. intros text Hhex.
  unfold decrypt, decrypt_body, decipher_update.
  rewrite Hhex. cbn [bind]. rewrite foldl_app.
  destruct (foldl absorb_d (createDecipheriv IV, []) out) as [d dout].
  cbn [fst snd] in Hsim. destruct Hsim as (Hpend & Hchain & Hsame & Hnone & Hout).
  assert (length (xor_bytes (pad (c_pending c)) (c_chain c)) = BLOCK) as Hx.
  { rewrite xor_bytes_length; rewrite pad_length; congruence. }
  rewrite decipher_absorb_block; [| done | by apply encrypt_block_length].
  cbn [fst snd bind]. unfold decipher_final. cbn [d_pending d_held].
  rewrite decrypt_encrypt_block by done.
  rewrite Hsame, xor_bytes_cancel by (rewrite pad_length; congruence).
  rewrite unpad_pad by done. cbn [bind try_catch_null].
  rewrite <- string_of_list_ascii_app, <- app_assoc, Hout.
  by rewrite string_of_list_ascii_of_string.
Qed.

(** C6. For every identity [x], deciphering the token made from [x] in
    the same process (same key, same [IV] of sixteen bytes) gives [x]:
    [decrypt(encrypt(x)) === x]. *)
Theorem decrypt_encrypt x :
  decrypt SECRET_KEY IV (encrypt SECRET_KEY IV x) = Some x.
Proof.
  destruct (token_deciphers x) as (bytes & Htoken & Hdeciphers).
  apply Hdeciphers. rewrite Htoken. apply hex_decode_encode.
Qed.

End WithKey.

Lemma decrypt_encrypt_witness :
  decrypt (H := demo_cipher) demo_key demo_iv
    (encrypt (H := demo_cipher) demo_key demo_iv "http://localhost:5000")
  = Some "http://localhost:5000"%string.
Proof.
  apply (@decrypt_encrypt demo_cipher demo_key demo_iv). reflexivity.
Defined.




(** The same with the letters of a token put in upper case, run on the
    example cipher. *)
Lemma uppercase_token_is_deciphered :
  let token := encrypt (H := demo_cipher) demo_key demo_iv "http://localhost:5000" in
  let text := "46425F5F5A540E030F4D4E5A1712110C534E4D48051112505C510B3E3B3B2328"%string in
  text = uppercase token
  ∧ (∀ x, encrypt (H := demo_cipher) demo_key demo_iv x ≠ text)
  ∧ decrypt (H := demo_cipher) demo_key demo_iv text
    = Some "http://localhost:5000"%string.
Proof.
  intros token text. split_and!.
  - by vm_compute.
  - intros x Heq.
    destruct (encrypt_is_hex (H := demo_cipher) demo_key demo_iv x) as [bytes Hb].
    assert ("F"%char ∈ lower_hex_digits) as Hin.
    { apply (hex_encode_lower bytes). rewrite <- Hb, Heq.
      apply list_elem_of_In. vm_compute. tauto. }
    apply list_elem_of_In in Hin. vm_compute in Hin.
    repeat destruct Hin as [Hin | Hin]; try discriminate Hin. done.
  - by vm_compute.
Qed.

End CodecFacts.

(** ** More on the abuse guard *)

Module AbuseGuardMore.
Import AbuseGuard AbuseGuardFacts.

(** X1. Whatever requests and reaper runs have happened since the process
    started, a recorded count lies between 1 and [RATE_LIMIT + 1], an
    address with a record is blocked exactly when its count stands at
    [RATE_LIMIT + 1], and an address without a record is not blocked. *)
Theorem guard_invariant es ip :
  match requestCounts (run initial es) !! ip with
  | Some data =>
      1 ≤ count data ≤ RATE_LIMIT + 1
      ∧ (ip ∈ blockedIPs (run initial es) ↔ count data = RATE_LIMIT + 1)
  | None => ip ∉ blockedIPs (run initial es)
  end.
Proof.
  revert ip. unfold run. induction es as [| e es IH] using rev_ind; intros ip.
  - simpl. rewrite lookup_empty. apply not_elem_of_empty.
  - rewrite foldl_snoc. set (st := foldl step initial es) in *.
    destruct e as [ip' now | now]; simpl.
    + destruct (decide (ip' = ip)) as [-> | Hne].
      * specialize (IH ip). unfold check, blockedMiddleware.
        destruct (decide (ip ∈ blockedIPs st)) as [Hin | Hout]; [done |].
        unfold rateLimitMiddleware, RATE_LIMIT in *.
        destruct (requestCounts st !! ip) as [data |]; simpl.
        -- destruct IH as [Hrange Hiff].
           assert (count data ≠ 101) as Hnot by (intros Heq; by apply Hout, Hiff).
           destruct (expired now _); simpl.
           ++ rewrite lookup_insert_eq. simpl. split; [lia |].
              split; [done | lia].
           ++ destruct (100 <? count data + 1) eqn:Hlim; simpl;
                rewrite lookup_insert_eq; simpl.
              ** apply Z.ltb_lt in Hlim. split; [lia |].
                 split; [lia |]. intros _. apply elem_of_union. left.
                 by apply elem_of_singleton.
              ** apply Z.ltb_ge in Hlim. split; [lia |].
                 split; [done | lia].
        -- rewrite lookup_insert_eq. simpl. split; [lia |]. split; [done | lia].
      * destruct (check_other ip' ip now st Hne) as [-> Hiff].
        specialize (IH ip). destruct (requestCounts st !! ip) as [data |].
        -- by rewrite Hiff.
        -- by rewrite Hiff.
    + rewrite reaper_lookup. specialize (IH ip).
      destruct (requestCounts st !! ip) as [data |] eqn:Hrec.
      * destruct (expired now data) eqn:Hex.
        -- rewrite reaper_blocked. intros [_ Hno]. apply Hno. eauto.
        -- destruct IH as [Hrange Hiff]. split; [done |].
           rewrite reaper_blocked, Hiff. split; [tauto |].
           intros Hc. split; [done |]. intros (d & Hd & Hexd). congruence.
      * rewrite reaper_blocked. tauto.
Qed.

(** X2. Blocking ends with the window.  An address that the guard has
    blocked has a record; the first run of the reaper after that record's
    window removes the record and the block, and the next request of the
    address is passed on and counted as a first request. *)
Theorem block_ends_with_window es ip :
  ip ∈ blockedIPs (run initial es) →
  ∃ data,
    requestCounts (run initial es) !! ip = Some data
    ∧ ∀ now now', now - startTime data > TIME_WINDOW →
        let st := reaper now (run initial es) in
        (ip ∉ blockedIPs st)
        ∧ check ip now' st =
            (Next, mkState (<[ip := mkRate 1 now']> (requestCounts st))
                           (blockedIPs st)).
Proof.
  intros Hin. destruct (blocked_has_record es ip Hin) as [data Hrec].
  exists data. split; [done |]. intros now now' Hold st.
  assert (requestCounts st !! ip = None ∧ ip ∉ blockedIPs st) as [Hgone Hfree].
  { unfold st. apply expired_spec in Hold. split.
    - by rewrite reaper_lookup, Hrec, Hold.
    - rewrite reaper_blocked. intros [_ Hno]. apply Hno. eauto. }
  split; [done |]. rewrite check_not_blocked by done.
  unfold rateLimitMiddleware. by rewrite Hgone.
Qed.

Lemma block_ends_with_window_witness :
  let ip := "10.0.0.7"%string in
  let es := Request ip 0 :: replicate 100 (Request ip 1) in
  ∃ data,
    requestCounts (run initial es) !! ip = Some data
    ∧ ∀ now now', now - startTime data > TIME_WINDOW →
        let st := reaper now (run initial es) in
        (ip ∉ blockedIPs st)
        ∧ check ip now' st =
            (Next, mkState (<[ip := mkRate 1 now']> (requestCounts st))
                           (blockedIPs st)).
Proof.
  intros ip es. apply (block_ends_with_window es ip).
  by vm_compute.
Defined.

(** X3. The request path never unblocks: whatever requests are served,
    from whatever addresses and at whatever times, an address that was
    blocked before is blocked after.  Where no reaper is registered, as in
    [loadBalancer.js], a block lasts as long as the process. *)
Theorem requests_never_unblock (rs : list (string * Z)) : ∀ st,
  blockedIPs st ⊆ blockedIPs (run st ((λ r, Request r.1 r.2) <$> rs)).
Proof.
  unfold run. induction rs as [| [ip now] rs IH]; intros st; [done |].
  rewrite fmap_cons. simpl foldl. etrans; [| apply IH].
  intros ip' Hin. simpl. by apply check_blocked_mono.
Qed.

(** X4. Rate limiting is per address: requests of other addresses change
    neither the record nor the blocked status of an address. *)
Theorem other_clients_do_not_interfere (rs : list (string * Z)) ip : ∀ st,
  Forall (λ r, r.1 ≠ ip) rs →
  requestCounts (run st ((λ r, Request r.1 r.2) <$> rs)) !! ip
    = requestCounts st !! ip
  ∧ (ip ∈ blockedIPs (run st ((λ r, Request r.1 r.2) <$> rs))
     ↔ ip ∈ blockedIPs st).
Proof.
  unfold run. induction rs as [| [ip' now] rs IH]; intros st Hne; [done |].
  apply Forall_cons in Hne as [Hne Hrest]. simpl in Hne.
  rewrite fmap_cons.
  change (foldl step st (?e :: ?es)) with (foldl step (step st e) es).
  destruct (IH (step st (Request ip' now)) Hrest) as [Hc Hb].
  destruct (check_other ip' ip now st Hne) as [Hc' Hb'].
  simpl in *. rewrite Hc, Hb. done.
Qed.

Lemma other_clients_do_not_interfere_witness :
  let ip := "10.0.0.7"%string in
  let st := mkState {[ ip := mkRate 3 0 ]} ∅ in
  let rs := replicate 200 ("10.0.0.8"%string, 5) in
  requestCounts (run st ((λ r, Request r.1 r.2) <$> rs)) !! ip
    = requestCounts st !! ip
  ∧ (ip ∈ blockedIPs (run st ((λ r, Request r.1 r.2) <$> rs))
     ↔ ip ∈ blockedIPs st).
Proof.
  intros ip st rs. apply (other_clients_do_not_interfere rs ip st).
  apply Forall_replicate. discriminate.
Defined.


End AbuseGuardMore.

(** ** More on the affinity codec *)

Module CodecMore.
Import Codec CodecFacts.

Lemma length_list_ascii_of_string s :
  length (list_ascii_of_string s) = String.length s.
Proof. induction s as [| c s IH]; simpl; [done | by rewrite IH]. Qed.

Lemma hex_encode_string_length bytes :
  String.length (hex_encode bytes) = (2 * length bytes)%nat.
Proof.
  rewrite <- length_list_ascii_of_string. unfold hex_encode.
  by rewrite list_ascii_of_string_of_list_ascii, hex_encode_length.
Qed.

Section WithKey.
Context `{BlockCipher}.
Variables (SECRET_KEY IV : list ascii).

Local Abbreviation absorb_c := (cipher_absorb SECRET_KEY).

(** What the cipher puts out does not depend on what was put out before. *)
Lemma cipher_absorb_output l : ∀ c out,
  foldl absorb_c (c, out) l =
    ((foldl absorb_c (c, []) l).1, out ++ (foldl absorb_c (c, []) l).2).
Proof.
  induction l as [| b l IH]; intros c out; simpl.
  - by rewrite app_nil_r.
  - unfold cipher_absorb at 2 4 6. cbn [fst snd].
    destruct (decide (length (c_pending c ++ [b]) = BLOCK)).
    + rewrite (IH _ (out ++ _)), (IH _ ([] ++ _)). cbn [fst snd].
      by rewrite <- !app_assoc.
    + rewrite (IH _ out). done.
Qed.

(** An empty text is refused before any block is deciphered. *)
Lemma decrypt_empty : decrypt SECRET_KEY IV "" = None.
Proof. reflexivity. Qed.

Hypothesis IV_length : length IV = BLOCK.

(** Buffered bytes and bytes put out, by the length of the input. *)
Lemma cipher_absorb_shape p :
  let r := foldl absorb_c (createCipheriv IV, []) p in
  length (c_chain r.1) = BLOCK
  ∧ length (c_pending r.1) = (length p mod BLOCK)%nat
  ∧ length r.2 = (BLOCK * (length p / BLOCK))%nat.
Proof.
  induction p as [| b p IH] using rev_ind.
  - simpl. split_and!; [done | done | done].
  - cbv zeta in *. rewrite foldl_snoc.
    destruct (foldl absorb_c (createCipheriv IV, []) p) as [c out].
    cbn [fst snd] in IH. destruct IH as (Hchain & Hpend & Hout).
    rewrite length_app. change (length [b]) with 1%nat.
    unfold BLOCK in *.
    pose proof (Nat.mod_upper_bound (length p) 16 ltac:(lia)) as Hub.
    pose proof (Nat.div_mod_eq (length p) 16) as Hdm.
    unfold cipher_absorb. cbn [fst snd].
    destruct (decide (length (c_pending c ++ [b]) = BLOCK)) as [Hfull | Hpart];
      cbn [fst snd c_chain c_pending];
      rewrite length_app in *; change (length [b]) with 1%nat in *;
      unfold BLOCK in *.
    + assert (length (encrypt_block SECRET_KEY
                        (xor_bytes (c_pending c ++ [b]) (c_chain c))) = 16%nat)
        as Hct.
      { apply encrypt_block_length. rewrite xor_bytes_length;
          rewrite length_app; simpl; unfold BLOCK; lia. }
      assert (((length p + 1) / 16 = S (length p / 16))%nat) as Hq.
      { symmetry. apply (Nat.div_unique _ 16 _ 0); lia. }
      split_and!.
      * done.
      * change (length []) with 0%nat.
        apply (Nat.mod_unique _ 16 (S (length p / 16))); lia.
      * rewrite Hct, Hout, Hq. lia.
    + assert (((length p + 1) / 16 = length p / 16)%nat) as Hq.
      { symmetry. apply (Nat.div_unique _ 16 _ (length p mod 16 + 1)); lia. }
      split_and!.
      * done.
      * apply (Nat.mod_unique _ 16 (length p / 16)); lia.
      * rewrite Hout, Hq. done.
Qed.

(** X8. A token is made of the digits [0]..[9] and [a]..[f] and is 32
    characters long for each started block of sixteen bytes of the
    identity, the padding block included: an empty identity has a token of
    32 characters, and no token is empty. *)
Theorem token_format x :
  String.length (encrypt SECRET_KEY IV x) = (32 * (String.length x / 16 + 1))%nat
  ∧ ∀ c, c ∈ list_ascii_of_string (encrypt SECRET_KEY IV x) →
         c ∈ lower_hex_digits.
Proof.
  split.
  - pose proof (cipher_absorb_shape (list_ascii_of_string x)) as Hshape.
    unfold encrypt, cipher_update, cipher_final. cbv zeta in Hshape.
    destruct (foldl absorb_c (createCipheriv IV, []) (list_ascii_of_string x))
      as [c out].
    cbn [fst snd] in *. destruct Hshape as (Hchain & Hpend & Hout).
    rewrite <- hex_encode_app, hex_encode_string_length, length_app, Hout.
    rewrite encrypt_block_length.
    + rewrite length_list_ascii_of_string. unfold BLOCK. lia.
    + rewrite xor_bytes_length; rewrite pad_length; try congruence.
      rewrite Hpend. unfold BLOCK. apply Nat.mod_upper_bound. lia.
      rewrite Hpend. unfold BLOCK. apply Nat.mod_upper_bound. lia.
  - destruct (encrypt_is_hex SECRET_KEY IV x) as [bytes ->].
    apply hex_encode_lower.
Qed.

Lemma encrypt_nonempty x : encrypt SECRET_KEY IV x ≠ "".
Proof.
  intros Heq. destruct (token_deciphers SECRET_KEY IV IV_length x)
    as (bytes & Htoken & Hdeciphers).
  assert (bytes = []) as ->.
  { apply (f_equal String.length) in Heq.
    rewrite Htoken, hex_encode_string_length in Heq. simpl in Heq.
    destruct bytes; [done | simpl in Heq; lia]. }
  specialize (Hdeciphers "" eq_refl). by rewrite decrypt_empty in Hdeciphers.
Qed.

(** X9. Different identities have different tokens. *)
Theorem encrypt_injective x y :
  x ≠ y → encrypt SECRET_KEY IV x ≠ encrypt SECRET_KEY IV y.
Proof.
  intros Hne Heq. apply Hne.
  destruct (token_deciphers SECRET_KEY IV IV_length x) as (bx & Hx & Hdx).
  destruct (token_deciphers SECRET_KEY IV IV_length y) as (by' & Hy & Hdy).
  rewrite Hx, Hy in Heq.
  specialize (Hdx _ (hex_decode_encode bx)).
  specialize (Hdy _ (hex_decode_encode by')).
  rewrite Heq in Hdx. congruence.
Qed.

(** X10. The [IV] is the same for every token, so tokens show where
    identities agree: all identities that begin with [p] have tokens that
    begin with the same 32 characters for each whole block of sixteen
    bytes of [p]. *)
Theorem common_prefix_shows p :
  ∃ shared,
    String.length shared = (32 * (String.length p / 16))%nat
    ∧ ∀ rest, ∃ tail, encrypt SECRET_KEY IV (p +:+ rest) = shared +:+ tail.
Proof.
  pose proof (cipher_absorb_shape (list_ascii_of_string p)) as Hshape.
  cbv zeta in Hshape.
  destruct (foldl absorb_c (createCipheriv IV, []) (list_ascii_of_string p))
    as [c out] eqn:Hp.
  cbn [fst snd] in Hshape. destruct Hshape as (_ & _ & Hout).
  exists (hex_encode out). split.
  - rewrite hex_encode_string_length, Hout, length_list_ascii_of_string.
    unfold BLOCK. lia.
  - intros rest. unfold encrypt, cipher_update, cipher_final.
    rewrite list_ascii_of_string_app, foldl_app, Hp, cipher_absorb_output.
    cbn [fst snd]. rewrite <- hex_encode_app, <- app_assoc, hex_encode_app. eauto.
Qed.

End WithKey.

Lemma token_format_witness :
  String.length (encrypt (H := demo_cipher) demo_key demo_iv "http://localhost:5000")
    = (32 * (String.length "http://localhost:5000" / 16 + 1))%nat
  ∧ ∀ c, c ∈ list_ascii_of_string
               (encrypt (H := demo_cipher) demo_key demo_iv "http://localhost:5000") →
         c ∈ lower_hex_digits.
Proof. apply (@token_format demo_cipher demo_key demo_iv). reflexivity. Defined.

Lemma encrypt_injective_witness :
  encrypt (H := demo_cipher) demo_key demo_iv "http://localhost:5000"
    ≠ encrypt (H := demo_cipher) demo_key demo_iv "http://localhost:5001".
Proof.
  apply (@encrypt_injective demo_cipher demo_key demo_iv);
    [reflexivity | discriminate].
Defined.

Lemma common_prefix_shows_witness :
  ∃ shared,
    String.length shared = (32 * (String.length "http://localhost:" / 16))%nat
    ∧ ∀ rest, ∃ tail,
        encrypt (H := demo_cipher) demo_key demo_iv ("http://localhost:" +:+ rest)
          = shared +:+ tail.
Proof. apply (@common_prefix_shows demo_cipher demo_key demo_iv). reflexivity. Defined.

End CodecMore.

(** ** More on the pool and the least-connections handler *)

Module PoolMore.
Import Pool PoolFacts.

(** X6. A monitor cycle changes [active] flags and nothing else: the pool
    keeps its size and order, every backend its address and its connection
    counter, whatever the probes answer and whether or not they are
    settled; and the addresses requested are those of a leading part of the
    pool, in order. *)
Theorem healthCheck_changes_flags_only get servers :
  url <$> (healthCheck get servers).2 = url <$> servers
  ∧ connections <$> (healthCheck get servers).2 = connections <$> servers
  ∧ (healthCheck get servers).1 `prefix_of` (health_target <$> servers).
Proof.
  induction servers as [| s servers (IHu & IHc & IHp)]; simpl.
  - split_and!; [done | done | by exists []].
  - destruct (get (health_target s)); cbn [fst snd]; rewrite ?fmap_cons.
    + split_and!; [by f_equal | by f_equal | by apply prefix_cons].
    + split_and!; [by f_equal | by f_equal | by apply prefix_cons].
    + split_and!; [done | done |]. by exists (health_target <$> servers).
Qed.

End PoolMore.

Module LeastConnectionsMore.
Import Pool Codec LeastConnections LeastConnectionsFacts CodecFacts.

Lemma least_loaded_exists servers :
  (∃ s, s ∈ servers ∧ active s = true) →
  ∃ i s, getLeastLoadedServer servers = Some (i, s).
Proof.
  intros (s0 & Hs0 & Hact0). apply list_elem_of_lookup in Hs0 as [i0 Hi0].
  assert ((i0, s0) ∈ activeServers servers) as Hin
    by by apply elem_of_activeServers.
  rewrite getLeastLoadedServer_unfold.
  destruct (activeServers servers) as [| x l]; [by inv Hin |].
  destruct (foldl pick x l) as [i s]. eauto.
Qed.

(** The backend that is returned holds no more connections than any
    active backend. *)
Lemma least_loaded_min servers i s :
  getLeastLoadedServer servers = Some (i, s) →
  ∀ j t, servers !! j = Some t → active t = true →
         connections s ≤ connections t.
Proof.
  rewrite getLeastLoadedServer_unfold.
  destruct (activeServers servers) as [| x l] eqn:Hactive; [done |].
  intros [= Hr] j t Hj Ht.
  destruct (foldl_pick_split l x) as (pre & post & Heq & Hpre & Hpost).
  rewrite Hr in *. simpl in *.
  assert ((j, t) ∈ pre ++ (i, s) :: post) as Hin.
  { rewrite <- Heq, <- Hactive. by apply elem_of_activeServers. }
  apply elem_of_app in Hin as [Hin | Hin].
  - rewrite Forall_forall in Hpre. apply (Hpre _ Hin).
  - apply elem_of_cons in Hin as [[= -> ->] | Hin]; [lia |].
    rewrite Forall_forall in Hpost. specialize (Hpost _ Hin). simpl in Hpost. lia.
Qed.

Section WithKey.
Context `{BlockCipher}.
Variables (SECRET_KEY IV : list ascii).

(** X7. The handler answers 503 exactly when no backend is active,
    whatever cookie the request carries, and then leaves the pool as it
    is. *)
Theorem unavailable_iff_none_active cookie st :
  ((handler SECRET_KEY IV cookie st).1 = ServiceUnavailable503
   ↔ ∀ s, s ∈ servers st → active s = false)
  ∧ ((handler SECRET_KEY IV cookie st).1 = ServiceUnavailable503 →
     (handler SECRET_KEY IV cookie st).2 = st).
Proof.
  unfold handler.
  destruct (match cookie with
            | Some c => if decide (c = "") then None
                        else find_sticky (servers st) (decrypt SECRET_KEY IV c)
            | None => None
            end) as [[i s] |] eqn:Hsticky.
  - simpl. split; [| done]. split; [done |]. intros Hnone. exfalso.
    assert (find_sticky (servers st) (decrypt SECRET_KEY IV (default "" cookie))
            = Some (i, s)) as Hfind.
    { destruct cookie as [c |]; [| done]. simpl. by destruct (decide (c = "")). }
    apply list_find_Some in Hfind as (Hl & [_ Hact] & _).
    apply list_elem_of_lookup_2 in Hl. rewrite (Hnone s Hl) in Hact. done.
  - destruct (getLeastLoadedServer (servers st)) as [[i s] |] eqn:Hleast; simpl.
    + split; [| done]. split; [done |]. intros Hnone. exfalso.
      apply getLeastLoadedServer_Some in Hleast as [Hl Hact].
      apply list_elem_of_lookup_2 in Hl. rewrite (Hnone s Hl) in Hact. done.
    + split; [| done]. split; [| done]. intros _ s Hs.
      destruct (active s) eqn:Hact; [| done]. exfalso.
      destruct (least_loaded_exists (servers st)) as (i & s' & Hsome); [eauto |].
      congruence.
Qed.

(** The cookie that the handler sets names the backend it has chosen. *)
Lemma handler_new_cookie cookie st i c st' :
  handler SECRET_KEY IV cookie st = (Forwarding i (Some c), st') →
  ∃ s, servers st !! i = Some s ∧ active s = true
       ∧ c = encrypt SECRET_KEY IV (url s).
Proof.
  unfold handler.
  destruct (match cookie with
            | Some c => if decide (c = "") then None
                        else find_sticky (servers st) (decrypt SECRET_KEY IV c)
            | None => None
            end) as [[j s] |]; [done |].
  destruct (getLeastLoadedServer (servers st)) as [[j s] |] eqn:Hleast; [| done].
  intros [= -> <- _]. apply getLeastLoadedServer_Some in Hleast as [Hl Hact].
  eauto.
Qed.



(** X12. A cookie that names no active backend is ignored: whether it does
    not decipher, or deciphers to an address that is not in the pool, or to
    the address of a backend that is down, the request is handled as one
    without cookie (a backend is chosen by least connections and a new
    cookie is set). *)
Theorem stale_cookie_is_ignored text st :
  (∀ s, s ∈ servers st → active s = true →
        decrypt SECRET_KEY IV text ≠ Some (url s)) →
  handler SECRET_KEY IV (Some text) st = handler SECRET_KEY IV None st.
Proof.
  intros Hstale. unfold handler.
  destruct (decide (text = "")); [done |].
  assert (find_sticky (servers st) (decrypt SECRET_KEY IV text) = None) as ->;
    [| done].
  apply list_find_None, Forall_forall. intros s Hs [Hurl Hact].
  by apply (Hstale s Hs Hact).
Qed.

(** X13. No request and no end of a forward changes which backends there
    are or which of them are active: over any run the addresses and the
    [active] flags of the pool are what they were.  In particular a
    forward that fails does not mark its backend as down. *)
Theorem run_keeps_pool es : ∀ st,
  url <$> servers (run SECRET_KEY IV st es) = url <$> servers st
  ∧ active <$> servers (run SECRET_KEY IV st es) = active <$> servers st.
Proof.
  assert (∀ (g : Server → Server) (i : nat) (l : list Server),
            (∀ x, url (g x) = url x) → (∀ x, active (g x) = active x) →
            url <$> alter g i l = url <$> l
            ∧ active <$> alter g i l = active <$> l) as Halter.
  { intros g i l Hu Ha. split.
    - rewrite (list_fmap_alter url g id) by by apply Forall_forall.
      by apply list_alter_id.
    - rewrite (list_fmap_alter active g id) by by apply Forall_forall.
      by apply list_alter_id. }
  unfold run. induction es as [| e es IH]; intros st; [done |].
  simpl foldl. destruct (IH (step SECRET_KEY IV st e)) as [-> ->].
  destruct e as [cookie | target | target]; simpl.
  - destruct (handler_cases SECRET_KEY IV cookie st)
      as [-> | (j & c & _ & ->)]; [done |].
    by apply Halter.
  - done.
  - by apply Halter.
Qed.

Lemma in_flight_nonneg i st : 0 ≤ in_flight i st.
Proof. unfold in_flight. lia. Qed.

Lemma succeeded_nonneg i es : 0 ≤ succeeded i es.
Proof.
  induction es as [| [cookie | j | j] es IH]; simpl; try done.
  destruct (decide (j = i)); lia.
Qed.

(** X14. Over any run in which only forwards that are under way end, the
    counter of a backend is the number of forwards under way to it, plus
    what it was ahead at the start, plus the number of forwards to it that
    have ended without error.  So the counter never falls below the
    number of forwards under way, and never below zero. *)
Theorem counter_covers_in_flight es st i c :
  feasible SECRET_KEY IV st es →
  connections_at i st = Some c →
  in_flight i st ≤ c →
  ∃ c',
    connections_at i (run SECRET_KEY IV st es) = Some c'
    ∧ c' = in_flight i (run SECRET_KEY IV st es)
           + (c - in_flight i st) + succeeded i es
    ∧ 0 ≤ in_flight i (run SECRET_KEY IV st es) ≤ c'.
Proof.
  intros Hfeas Hc Hle. rewrite (run_drift SECRET_KEY IV es st i c Hfeas Hc).
  eexists. split; [reflexivity |].
  pose proof (in_flight_nonneg i (run SECRET_KEY IV st es)).
  pose proof (succeeded_nonneg i es). lia.
Qed.

(** X21. Clients without cookie are spread evenly: if no active backend
    holds more than one connection more than another, this is still so
    after any number of requests without cookie have been dispatched. *)
Theorem new_clients_spread_evenly n : ∀ st,
  Balance.balanced (servers st) →
  Balance.balanced
    (servers (run SECRET_KEY IV st (replicate n (Request None)))).
Proof.
  unfold run. induction n as [| n IH]; intros st Hbal; [done |].
  simpl. apply IH. clear IH. unfold handler.
  destruct (getLeastLoadedServer (servers st)) as [[m sm] |] eqn:Hleast;
    [| done].
  pose proof (least_loaded_min _ _ _ Hleast) as Hmin.
  apply getLeastLoadedServer_Some in Hleast as [Hm Hactm]. simpl.
  intros i j s t Hi Hj Hs Ht.
  rewrite list_lookup_alter in Hi, Hj.
  destruct (decide (m = i)) as [<- | Hmi], (decide (m = j)) as [<- | Hmj];
    rewrite ?Hm in *; simpl in *; simplify_eq; simpl in *.
  - lia.
  - specialize (Hmin j t Hj Ht). lia.
  - specialize (Hbal i m s sm Hi Hm Hs Hactm). lia.
  - by apply (Hbal i j).
Qed.

Hypothesis IV_length : length IV = BLOCK.

(** X15. A client that sends back the cookie it was given is forwarded to
    the backend it was given, whatever the connection counters have become,
    as long as the pool has the same addresses, no two of them equal, and
    that backend is active; no new cookie is set. *)
Theorem cookie_leads_back cookie0 st i cookie st1 st2 :
  NoDup (url <$> servers st) →
  handler SECRET_KEY IV cookie0 st = (Forwarding i (Some cookie), st1) →
  url <$> servers st2 = url <$> servers st →
  (∃ s, servers st2 !! i = Some s ∧ active s = true) →
  (handler SECRET_KEY IV (Some cookie) st2).1 = Forwarding i None.
Proof.
  intros Hnodup Hfirst Hurls (s2 & Hl2 & Hact2).
  destruct (handler_new_cookie _ _ _ _ _ Hfirst) as (s & Hl & _ & ->).
  assert (url s2 = url s) as Hsame.
  { assert ((url <$> servers st2) !! i = Some (url s2)) as Hu2
      by by rewrite list_lookup_fmap, Hl2.
    rewrite Hurls, list_lookup_fmap, Hl in Hu2. by injection Hu2. }
  destruct (token_deciphers SECRET_KEY IV IV_length (url s))
    as (bytes & Htoken & Hdeciphers).
  specialize (Hdeciphers _ (hex_decode_encode bytes)).
  rewrite <- Htoken in Hdeciphers. unfold handler.
  destruct (decide (encrypt SECRET_KEY IV (url s) = "")) as [Hempty | _].
  { by apply (CodecMore.encrypt_nonempty SECRET_KEY IV IV_length) in Hempty. }
  rewrite Hdeciphers.
  assert (find_sticky (servers st2) (Some (url s)) = Some (i, s2)) as ->;
    [| done].
  apply list_find_Some. split_and!; [done | by rewrite Hsame | done |].
  intros j y Hj Hlt [Hurl _]. injection Hurl as Hurl.
  assert (i = j); [| lia].
  apply (NoDup_lookup (url <$> servers st2) i j (url s)).
  - by rewrite Hurls.
  - rewrite list_lookup_fmap, Hl2. simpl. by rewrite Hsame.
  - rewrite list_lookup_fmap, Hj. simpl. by rewrite Hurl.
Qed.

(** X16. Failover happens on the next request.  Once a monitor cycle whose
    probes are all settled has found the backend of a cookie not to
    answer 200, a request with that cookie is handled like a request
    without cookie: it goes to an active backend chosen by least
    connections, with a new cookie, or gets 503 when none is active. *)
Theorem failover_after_health_check get st s :
  Forall (settles get) (servers st) →
  get (health_target s) ≠ Fulfilled 200 →
  let st' := mkState (healthCheck get (servers st)).2 (inFlight st) in
  handler SECRET_KEY IV (Some (encrypt SECRET_KEY IV (url s))) st'
  = handler SECRET_KEY IV None st'.
Proof.
  intros Hsettle Hdown st'.
  assert (servers st' = probed get <$> servers st) as Hservers.
  { unfold st'. simpl. rewrite <- (app_nil_r (servers st)) at 1.
    rewrite (PoolFacts.healthCheck_app get (servers st) [] Hsettle). simpl.
    by rewrite app_nil_r. }
  destruct (token_deciphers SECRET_KEY IV IV_length (url s))
    as (bytes & Htoken & Hdeciphers).
  specialize (Hdeciphers _ (hex_decode_encode bytes)).
  rewrite <- Htoken in Hdeciphers. unfold handler.
  destruct (decide (encrypt SECRET_KEY IV (url s) = "")); [done |].
  rewrite Hdeciphers.
  assert (find_sticky (servers st') (Some (url s)) = None) as ->; [| done].
  apply list_find_None, Forall_forall. rewrite Hservers.
  intros s' Hs' [Hurl Hact]. apply list_elem_of_fmap in Hs' as (s0 & -> & _).
  unfold probed in *. simpl in *. injection Hurl as Hurl.
  assert (health_target s0 = health_target s) as Htarget
    by (unfold health_target; by rewrite Hurl).
  rewrite Htarget in Hact.
  destruct (get (health_target s)) as [status | |]; try done.
  apply Z.eqb_eq in Hact. by subst status.
Qed.

End WithKey.

Lemma new_clients_spread_evenly_witness :
  let a := mkServer "https://a.example" true 3 in
  let b := mkServer "https://b.example" true 4 in
  let c := mkServer "https://c.example" false 9 in
  Balance.balanced
    (servers (run (H := demo_cipher) demo_key demo_iv (mkState [a; b; c] [])
                  (replicate 7 (Request None)))).
Proof.
  intros a b c.
  apply (@new_clients_spread_evenly demo_cipher demo_key demo_iv 7
           (mkState [a; b; c] [])).
  intros [| [| [| i]]] [| [| [| j]]] s t Hi Hj Hs Ht;
    simpl in *; simplify_eq; simpl in *; try done; lia.
Defined.

Lemma failover_after_health_check_witness :
  let a := mkServer "https://a.example" true 0 in
  let b := mkServer "https://b.example" true 0 in
  let get := (λ target : string,
    if decide (target = "https://a.example/health"%string) then Rejected
    else Fulfilled 200) in
  let st' := mkState (healthCheck get [a; b]).2 [] in
  handler (H := demo_cipher) demo_key demo_iv
    (Some (encrypt (H := demo_cipher) demo_key demo_iv (url a))) st'
  = handler (H := demo_cipher) demo_key demo_iv None st'.
Proof.
  intros a b get.
  apply (@failover_after_health_check demo_cipher demo_key demo_iv eq_refl
           get (mkState [a; b] []) a).
  - repeat constructor; unfold settles; vm_compute; discriminate.
  - vm_compute. discriminate.
Defined.


Lemma stale_cookie_is_ignored_witness :
  let st := mkState [mkServer "https://a.example" true 0] [] in
  handler (H := demo_cipher) demo_key demo_iv (Some "zz"%string) st
  = handler (H := demo_cipher) demo_key demo_iv None st.
Proof.
  intros st. apply (@stale_cookie_is_ignored demo_cipher demo_key demo_iv "zz" st).
  intros s _ _. vm_compute. discriminate.
Defined.

Lemma counter_covers_in_flight_witness :
  let st := mkState [mkServer "https://a.example" true 0] [] in
  let es := [Request None; Succeeded 0%nat; Request None] in
  ∃ c',
    connections_at 0 (run (H := demo_cipher) demo_key demo_iv st es) = Some c'
    ∧ c' = in_flight 0 (run (H := demo_cipher) demo_key demo_iv st es)
           + (0 - in_flight 0 st) + succeeded 0 es
    ∧ 0 ≤ in_flight 0 (run (H := demo_cipher) demo_key demo_iv st es) ≤ c'.
Proof.
  intros st es.
  apply (@counter_covers_in_flight demo_cipher demo_key demo_iv es st 0%nat 0).
  - simpl. split_and!; try done. constructor.
  - reflexivity.
  - reflexivity.
Defined.

Lemma cookie_leads_back_witness :
  let a := mkServer "https://a.example" true 0 in
  let b := mkServer "https://b.example" true 0 in
  let cookie := encrypt (H := demo_cipher) demo_key demo_iv "https://b.example" in
  (handler (H := demo_cipher) demo_key demo_iv (Some cookie)
     (mkState [a; mkServer "https://b.example" true 7] [])).1
  = Forwarding 1 None.
Proof.
  intros a b cookie.
  apply (@cookie_leads_back demo_cipher demo_key demo_iv eq_refl None
           (mkState [a; b] []) 1%nat cookie
           (mkState [a; incr_connections b] [1%nat])
           (mkState [a; mkServer "https://b.example" true 7] [])).
  - simpl. repeat constructor; set_solver.
  - reflexivity.
  - reflexivity.
  - eexists. split; reflexivity.
Defined.

End LeastConnectionsMore.

(** ** More on the round-robin handler *)

Module RoundRobinMore.
Import Pool Codec CodecFacts RoundRobin RoundRobinFacts.

Section WithKey.
Context `{BlockCipher}.
Variables (SECRET_KEY IV : list ascii).

Lemma handler_keeps_servers cookie st :
  servers (handler SECRET_KEY IV cookie st).2 = servers st.
Proof.
  unfold handler.
  destruct (match cookie with
            | Some c => if decide (c = "") then None
                        else find_sticky (servers st) (decrypt SECRET_KEY IV c)
            | None => None
            end) as [[i s] |]; [done |].
  destruct (decide _); [done |].
  by destruct (activeServers (servers st) !! currentServerIndex st) as [[i s] |].
Qed.

(** X17. Rotation.  While the availability of the backends does not
    change and the cursor is inside the active set, requests without
    cookie are given the active backends in the order of the pool, one
    after the other and around again: after [n] such requests the cursor
    is [(cursor + n) mod N], and the next one goes to the active backend
    at that place, with a cookie for its address. *)
Theorem round_robin_cycles st n :
  (currentServerIndex st < length (activeServers (servers st)))%nat →
  let N := length (activeServers (servers st)) in
  let stn := run SECRET_KEY IV st (replicate n (Request None)) in
  servers stn = servers st
  ∧ currentServerIndex stn = ((currentServerIndex st + n) mod N)%nat
  ∧ ∃ i s,
      activeServers (servers st) !! ((currentServerIndex st + n) mod N)%nat
        = Some (i, s)
      ∧ (handler SECRET_KEY IV None stn).1
        = Returned (Forwarding i (Some (encrypt SECRET_KEY IV (url s)))).
Proof.
  intros Hin N stn.
  assert (N ≠ 0%nat) as HN by (unfold N; lia).
  assert (servers stn = servers st
          ∧ currentServerIndex stn = ((currentServerIndex st + n) mod N)%nat)
    as [Hservers Hcursor].
  { unfold stn, run. clear stn. induction n as [| n [IHs IHc]].
    - simpl. split; [done |]. rewrite Nat.add_0_r.
      symmetry. by apply Nat.mod_small.
    - rewrite replicate_S_end, foldl_snoc.
      set (stn := foldl (step SECRET_KEY IV) st (replicate n (Request None))) in *.
      simpl. split.
      + by rewrite handler_keeps_servers.
      + destruct (handler_advances_modulo SECRET_KEY IV stn) as [-> _].
        * rewrite IHs. intros Hnil. unfold N in HN. by rewrite Hnil in HN.
        * rewrite IHs, IHc. fold N.
          rewrite Nat.Div0.add_mod_idemp_l. f_equal. lia. }
  split_and!; [done | done |].
  destruct (handler_in_range SECRET_KEY IV stn) as (i & s & Hl & Hh).
  - rewrite Hservers, Hcursor. by apply Nat.mod_upper_bound.
  - rewrite Hservers, Hcursor in Hl. eauto.
Qed.

(** X18. A request without cookie makes the handler throw exactly when
    some backend is active and the cursor is not below the number of
    active backends.  The cursor it leaves behind is below that number, so
    the request that follows, if availability has not changed, is
    served. *)
Theorem throws_iff_cursor_outside st :
  ((∃ message, (handler SECRET_KEY IV None st).1 = Thrown message)
   ↔ activeServers (servers st) ≠ []
     ∧ (length (activeServers (servers st)) ≤ currentServerIndex st)%nat)
  ∧ (activeServers (servers st) ≠ [] →
     ∃ i setCookie,
       (handler SECRET_KEY IV None (handler SECRET_KEY IV None st).2).1
       = Returned (Forwarding i setCookie)).
Proof.
  split.
  - unfold handler. simpl.
    destruct (decide (length (activeServers (servers st)) = 0%nat)) as [Hz | Hnz].
    + split; [by intros [m Hm] |]. intros [Hne _].
      by apply length_zero_iff_nil in Hz.
    + destruct (activeServers (servers st) !! currentServerIndex st)
        as [[i s] |] eqn:Hl; simpl.
      * split; [by intros [m Hm] |]. intros [_ Hge].
        apply lookup_lt_Some in Hl. lia.
      * split; [| eauto]. intros _. split.
        -- intros Hnil. by rewrite Hnil in Hnz.
        -- by apply lookup_ge_None in Hl.
  - intros Hne.
    destruct (handler_advances_modulo SECRET_KEY IV st Hne) as [_ Hlt].
    destruct (handler_in_range SECRET_KEY IV (handler SECRET_KEY IV None st).2)
      as (i & s & _ & Hh).
    + by rewrite handler_keeps_servers.
    + eauto.
Qed.

(** X19. The round-robin handler, too, forwards to active backends of the
    pool only, whether the cookie or the cursor decides, and leaves the
    pool as it is. *)
Theorem round_robin_forwards_to_active cookie st i setCookie :
  (handler SECRET_KEY IV cookie st).1 = Returned (Forwarding i setCookie) →
  ∃ s, servers st !! i = Some s ∧ active s = true.
Proof.
  unfold handler.
  destruct (match cookie with
            | Some c => if decide (c = "") then None
                        else find_sticky (servers st) (decrypt SECRET_KEY IV c)
            | None => None
            end) as [[j s] |] eqn:Hsticky.
  - simpl. intros [= -> _].
    assert (find_sticky (servers st) (decrypt SECRET_KEY IV (default "" cookie))
            = Some (i, s)) as Hfind.
    { destruct cookie as [c |]; [| done]. simpl. by destruct (decide (c = "")). }
    apply list_find_Some in Hfind as (Hl & [_ Hact] & _). eauto.
  - destruct (decide _); [done |].
    destruct (activeServers (servers st) !! currentServerIndex st)
      as [[j s] |] eqn:Hl; [| done].
    simpl. intros [= -> _]. apply list_elem_of_lookup_2 in Hl.
    apply LeastConnectionsFacts.elem_of_activeServers in Hl. eauto.
Qed.

End WithKey.

Lemma round_robin_cycles_witness :
  let a := mkServer "https://a.example" true 0 in
  let b := mkServer "https://b.example" false 0 in
  let c := mkServer "https://c.example" true 0 in
  let st := mkState [a; b; c] 1 in
  let stn := run (H := demo_cipher) demo_key demo_iv st
                 (replicate 5 (Request None)) in
  servers stn = servers st
  ∧ currentServerIndex stn = ((1 + 5) mod 2)%nat
  ∧ ∃ i s,
      activeServers (servers st) !! ((1 + 5) mod 2)%nat = Some (i, s)
      ∧ (handler (H := demo_cipher) demo_key demo_iv None stn).1
        = Returned (Forwarding i
                      (Some (encrypt (H := demo_cipher) demo_key demo_iv (url s)))).
Proof.
  intros a b c st.
  apply (@round_robin_cycles demo_cipher demo_key demo_iv st 5).
  vm_compute. lia.
Defined.

Lemma round_robin_forwards_to_active_witness :
  let a := mkServer "https://a.example" false 0 in
  let b := mkServer "https://b.example" true 0 in
  ∃ s, [a; b] !! 1%nat = Some s ∧ active s = true.
Proof.
  intros a b.
  apply (@round_robin_forwards_to_active demo_cipher demo_key demo_iv None
           (mkState [a; b] 0) 1%nat
           (Some (encrypt (H := demo_cipher) demo_key demo_iv "https://b.example"))).
  reflexivity.
Defined.

End RoundRobinMore.

(** ** The cross-origin policy *)

Module CorsMore.
Import Codec Cors.

(** X20. A request that names an origin is let through only when the
    [Origin] header is, character for character, one of the two entries of
    [allowedOrigins]; both end in a slash, so an accepted origin ends in a
    slash.  A request without [Origin] header is always let through. *)
Theorem accepted_origin_ends_in_slash o :
  origin None = Returned true
  ∧ (origin (Some o) = Returned true →
     o = ""%string ∨ (o ∈ allowedOrigins ∧ ∃ p, o = p +:+ "/"))
  ∧ (o ≠ ""%string → o ∉ allowedOrigins →
     origin (Some o) = Thrown "Not allowed by CORS").
Proof.
  split_and!; [done | |].
  - unfold origin. destruct (decide _) as [[-> | Hin] | _]; [by left | | done].
    intros _. right. split; [done |]. unfold allowedOrigins in Hin.
    apply elem_of_cons in Hin as [-> | Hin]; [by eexists "https://freelancerhub-five.vercel.app" |].
    apply list_elem_of_singleton in Hin as ->.
    by eexists "https://freelancer-admin.vercel.app".
  - intros Hne Hout. unfold origin. destruct (decide _) as [[? | ?] | _]; done.
Qed.

End CorsMore.
